(** * demo-traveler: the build pipeline of [build.mjs]

    A shallow embedding of the pure core of the build script: the text
    escaper, the template engine, the candidate selector and the budget bar,
    together with the properties the design document states about them.

    JavaScript strings are sequences of UTF-16 code units, kept as lists of
    integers; exceptions are kept in a completion type in the style of the
    ECMAScript specification.  The compaction engine (RegPack) is a
    collaborator of the script and enters as a parameter. *)

From Stdlib Require Import QArith Qround.
From Equations Require Import Equations.
From stdpp Require Import gmap list strings.

Local Open Scope Z_scope.

(** ** JavaScript values used by the script *)

Module JS.

(** A string is its sequence of UTF-16 code units. *)
Definition jsstring := list Z.

(** Code units of an ASCII literal. *)
Definition lit (s : string) : jsstring :=
  (fun a => Z.of_N (Ascii.N_of_ascii a)) <$> String.list_ascii_of_string s.

(** [s.length] counts code units. *)
Definition str_length (s : jsstring) : nat := length s.

Inductive jsval :=
| Undefined
| Null
| Str (s : jsstring).

(** [v == null] holds of [null] and [undefined] only. *)
Definition nullish (v : jsval) : bool :=
  match v with
  | Undefined | Null => true
  | Str _ => false
  end.

Inductive exn :=
| Error (message : jsstring)
| TypeError (message : jsstring).

(** Outcome of evaluating a piece of code: a value or a thrown exception. *)
Inductive completion (A : Type) :=
| Normal (a : A)
| Throw (e : exn).
Arguments Normal {A} a.
Arguments Throw {A} e.

(** Sequencing: an exception cuts the rest short. *)
#[export] Instance completion_bind : MBind completion := fun A B k c =>
  match c with
  | Normal a => k a
  | Throw e => Throw e
  end.

Definition returned {A} (c : completion A) : Prop := exists a, c = Normal a.
Definition throws {A} (c : completion A) : Prop := exists e, c = Throw e.

(** [JSON.stringify] of a string none of whose code units needs an escape. *)
Definition quote (s : jsstring) : jsstring := 34 :: s ++ [34].

(** A [Map] keyed by strings; [get] answers [undefined] for a missing key. *)
Definition Map_get (m : gmap jsstring jsval) (k : jsstring) : jsval :=
  default Undefined (m !! k).

(** [new Map(entries)]: a later entry replaces an earlier one with its key. *)
Definition Map_of (entries : list (jsstring * jsval)) : gmap jsstring jsval :=
  foldl (fun m kv => <[kv.1 := kv.2]> m) ∅ entries.

(** *** [Buffer.from(s, 'utf8')]

    Node encodes the code units as UTF-8: a surrogate pair becomes one
    four-byte sequence, a surrogate without its partner becomes U+FFFD. *)
Definition is_high_surrogate (c : Z) : bool :=
  bool_decide (0xD800 <= c < 0xDC00).
Definition is_low_surrogate (c : Z) : bool :=
  bool_decide (0xDC00 <= c < 0xE000).

Definition utf8_1 (c : Z) : list Z := [c].
Definition utf8_2 (c : Z) : list Z :=
  [Z.lor 0xC0 (Z.shiftr c 6); Z.lor 0x80 (Z.land c 0x3F)].
Definition utf8_3 (c : Z) : list Z :=
  [Z.lor 0xE0 (Z.shiftr c 12);
   Z.lor 0x80 (Z.land (Z.shiftr c 6) 0x3F);
   Z.lor 0x80 (Z.land c 0x3F)].
Definition utf8_4 (c : Z) : list Z :=
  [Z.lor 0xF0 (Z.shiftr c 18);
   Z.lor 0x80 (Z.land (Z.shiftr c 12) 0x3F);
   Z.lor 0x80 (Z.land (Z.shiftr c 6) 0x3F);
   Z.lor 0x80 (Z.land c 0x3F)].

Definition replacement : list Z := [0xEF; 0xBF; 0xBD].

Definition code_point (hi lo : Z) : Z :=
  0x10000 + Z.shiftl (hi - 0xD800) 10 + (lo - 0xDC00).

Fixpoint Buffer_from (s : jsstring) : list Z :=
  match s with
  | [] => []
  | c :: r =>
    if bool_decide (c < 0x80) then utf8_1 c ++ Buffer_from r
    else if bool_decide (c < 0x800) then utf8_2 c ++ Buffer_from r
    else if is_high_surrogate c then
      match r with
      | d :: r' =>
        if is_low_surrogate d then utf8_4 (code_point c d) ++ Buffer_from r'
        else replacement ++ Buffer_from r
      | [] => replacement
      end
    else if is_low_surrogate c then replacement ++ Buffer_from r
    else utf8_3 c ++ Buffer_from r
  end.

(** [Buffer.from(s, 'utf8').length] *)
Definition byte_length (s : jsstring) : nat := length (Buffer_from s).

End JS.

Import JS.

(** ** The compaction engine, as the script sees it *)

(** One entry of what [packer.runPacker] returns: the preprocessed input and
    the outputs of the packing stages.  The script reads component [1] of each
    stage and nothing else. *)
Record method := {
  contents : jsstring;
  result : list (Z * jsstring)
}.

(** ** Candidate selection *)

Section Selector.

(** [packer.runPacker(source, options)], with the options object left out:
    the script always passes the empty one. *)
Variable packer : jsstring -> list method.

(** The generator [runPacker]: for each method its [contents], then the
    stage outputs from the last to the first. *)
Definition runPacker (source : jsstring) : list jsstring :=
  m ← packer source; contents m :: (snd <$> reverse (result m)).

(** The two variables of [compressSource]; [None] is [undefined]. *)
Record selection := {
  text : option jsstring;
  buf : option (list Z)
}.

Definition undefined_length : exn :=
  TypeError (lit "Cannot read properties of undefined (reading 'length')").

(** One turn of the loop body. *)
Definition compressSource_step (st : selection) (output : jsstring)
  : completion selection :=
  let obuf := Buffer_from output in
  let take := Normal {| text := Some output; buf := Some obuf |} in
  match text st with
  | None => take
  | Some _ =>
    match buf st with
    | None => Throw undefined_length
    | Some b =>
      if bool_decide (length obuf < length b)%nat then take else Normal st
    end
  end.

Fixpoint compressSource_loop (st : selection) (outputs : list jsstring)
  : completion selection :=
  match outputs with
  | [] => Normal st
  | output :: rest =>
    st' ← compressSource_step st output; compressSource_loop st' rest
  end.

Definition compressSource (source : jsstring) : completion selection :=
  compressSource_loop {| text := None; buf := None |} (runPacker source).

End Selector.

(** ** [String.prototype.replace] with a global pattern and a function *)

(** A value together with the equation that names it, for the case analyses
    of the recursive definitions below. *)
Definition inspect {A} (a : A) : {b | a = b} := exist _ a eq_refl.

Section Replace.

(** The pattern tried at the head of the input: on success the matched text
    followed by its capture groups, and the input after the match. *)
Variable exec_at : jsstring -> option (list jsstring * jsstring).

(** Neither pattern of the script matches the empty string. *)
Hypothesis exec_at_shorter :
  forall s groups rest,
    exec_at s = Some (groups, rest) -> (length rest < length s)%nat.

(** The function called with the matched text and the groups. *)
Variable replacer : list jsstring -> completion jsstring.

(** Matches are looked for left to right, each search resuming after the
    previous match; text between matches is copied. *)
Equations? replace (s : jsstring) : completion jsstring by wf (length s) lt :=
  replace s with inspect (exec_at s) := {
    | exist _ (Some (groups, rest)) E =>
        v ← replacer groups; t ← replace rest; Normal (v ++ t)
    | exist _ None E with s := {
        | [] => Normal []
        | c :: r => t ← replace r; Normal (c :: t) } }.
Proof.
  - eapply exec_at_shorter; eassumption.
  - simpl; lia.
Qed.

(** The groups of the matches, in the order they are found. *)
Equations? matches (s : jsstring) : list (list jsstring) by wf (length s) lt :=
  matches s with inspect (exec_at s) := {
    | exist _ (Some (groups, rest)) E => groups :: matches rest
    | exist _ None E with s := {
        | [] => []
        | c :: r => matches r } }.
Proof.
  - eapply exec_at_shorter; eassumption.
  - simpl; lia.
Qed.

End Replace.

(** ** Text escaper *)

(** If [s] starts with [p], what follows. *)
Fixpoint strip_prefix (p s : jsstring) : option jsstring :=
  match p, s with
  | [], _ => Some s
  | a :: p', b :: s' => if decide (a = b) then strip_prefix p' s' else None
  | _ :: _, [] => None
  end.

(** The pattern [/&<>/]: the three code units in a row. *)
Definition amp_lt_gt : jsstring := lit "&<>".

Definition amp_lt_gt_at (s : jsstring) : option (list jsstring * jsstring) :=
  rest ← strip_prefix amp_lt_gt s; Some ([amp_lt_gt], rest).

Lemma strip_prefix_app p s rest :
  strip_prefix p s = Some rest -> s = p ++ rest.
Proof.
  revert s; induction p as [|a p IH]; intros [|b s]; simpl; try congruence.
  destruct (decide (a = b)); [|congruence].
  intros H; apply IH in H; congruence.
Qed.

Lemma amp_lt_gt_at_shorter s groups rest :
  amp_lt_gt_at s = Some (groups, rest) -> (length rest < length s)%nat.
Proof.
  unfold amp_lt_gt_at. destruct (strip_prefix amp_lt_gt s) as [r|] eqn: E; [|discriminate].
  simpl. intros [= _ <-]. apply strip_prefix_app in E. subst s. simpl. lia.
Qed.

(** The arrow function passed to [replace] by [escapeTextHTML]. *)
Definition escape_match (args : list jsstring) : completion jsstring :=
  let t := default [] (head args) in
  if decide (t = lit "&") then Normal (lit "&amp;")
  else if decide (t = lit "<") then Normal (lit "&lt;")
  else if decide (t = lit ">") then Normal (lit "&gt;")
  else Throw (Error (lit "Unexpected text " ++ quote t)).

Definition escapeTextHTML (text : jsstring) : completion jsstring :=
  replace amp_lt_gt_at amp_lt_gt_at_shorter escape_match text.

(** ** Template engine *)

(** [\w]: a letter, a digit or the underscore. *)
Definition is_word (c : Z) : bool :=
  bool_decide (48 <= c <= 57 \/ 65 <= c <= 90 \/ c = 95 \/ 97 <= c <= 122).

(** The longest run of word characters at the head, and what follows it. *)
Fixpoint word_run (s : jsstring) : jsstring * jsstring :=
  match s with
  | c :: r =>
    if is_word c then let '(w, t) := word_run r in (c :: w, t) else ([], s)
  | [] => ([], [])
  end.

(** The code units of two opening and of two closing braces. *)
Definition open_braces : jsstring := [123; 123].
Definition close_braces : jsstring := [125; 125].

(** The text of a placeholder. *)
Definition placeholder (name : jsstring) : jsstring :=
  open_braces ++ name ++ close_braces.

(** The pattern [/\{\{(\w+)\}\}/] tried at the head of [s].  The group is
    greedy; giving a character back never helps, since what then follows the
    group is a word character and not a closing brace. *)
Definition placeholder_at (s : jsstring) : option (list jsstring * jsstring) :=
  r ← strip_prefix open_braces s;
  let '(name, t) := word_run r in
  match name with
  | [] => None
  | _ :: _ => rest ← strip_prefix close_braces t; Some ([placeholder name; name], rest)
  end.

Lemma word_run_app s : s = (word_run s).1 ++ (word_run s).2.
Proof.
  induction s as [|c r IH]; simpl; [done|].
  destruct (is_word c); [|done].
  destruct (word_run r) as [w t]; simpl in *. congruence.
Qed.

Lemma placeholder_at_app s groups rest :
  placeholder_at s = Some (groups, rest) ->
  exists name, name <> [] /\ groups = [placeholder name; name]
    /\ s = placeholder name ++ rest.
Proof.
  unfold placeholder_at.
  destruct (strip_prefix open_braces s) as [r|] eqn: E1;
    cbn [mbind option_bind]; [|intros [=]].
  pose proof (word_run_app r) as Hr.
  destruct (word_run r) as [[|c w] t]; [intros [=]|]. simpl in Hr.
  destruct (strip_prefix close_braces t) as [t'|] eqn: E2;
    cbn [mbind option_bind]; [|intros [=]].
  intros [= <- <-]. exists (c :: w). split; [done|]. split; [done|].
  apply strip_prefix_app in E1, E2. subst s r t.
  unfold placeholder. by rewrite <- !app_assoc.
Qed.

Lemma placeholder_at_shorter s groups rest :
  placeholder_at s = Some (groups, rest) -> (length rest < length s)%nat.
Proof.
  intros (name & _ & _ & ->)%placeholder_at_app.
  unfold placeholder. rewrite !length_app. simpl. lia.
Qed.

Definition undefined_variable (name : jsstring) : exn :=
  Error (lit "Template has undefined variable: " ++ quote name).

(** The arrow function passed to [replace] by [evalTemplate]: its second
    argument is the group. *)
Definition eval_match (variables : gmap jsstring jsval) (args : list jsstring)
  : completion jsstring :=
  let name := default [] (args !! 1%nat) in
  match Map_get variables name with
  | Str value => Normal value
  | Undefined | Null => Throw (undefined_variable name)
  end.

Definition evalTemplate (template : jsstring) (variables : gmap jsstring jsval)
  : completion jsstring :=
  replace placeholder_at placeholder_at_shorter (eval_match variables) template.

(** The identifiers of the placeholders of a template, as the scan meets them. *)
Definition placeholders (template : jsstring) : list jsstring :=
  (fun groups => default [] (groups !! 1%nat))
    <$> matches placeholder_at placeholder_at_shorter template.

(** ** Document assembly *)

(** Title of the demo. *)
Definition title : jsstring := lit "Traveler".

(** Maximum size of packed source. *)
Definition sizeLimit : Z := 1024.

Definition buildHTML (source : jsval) (shim : jsstring) : completion jsstring :=
  title_html ← escapeTextHTML title;
  evalTemplate shim
    (Map_of [(lit "title_html", Str title_html);
             (lit "title_js", Str (quote title));
             (lit "code", source)]).

(** ** Numbers

    A JavaScript number is a binary64 floating-point value; the finite ones
    are rationals.  A product or quotient is the exact result rounded to a
    representable value.  The rounding enters as a parameter [fl]; what is
    used of it is that it is monotone and leaves representable values alone.
    Infinities and NaN are outside the model: the fractions that reach the bar
    are finite. *)

Record binary64_rounding (fl : Q -> Q) : Prop := {
  fl_monotone : forall x y : Q, (x <= y)%Q -> (fl x <= fl y)%Q;
  (** [m / 2^e] with a 53-bit [m] and [e] up to 1074 is representable. *)
  fl_representable : forall (m : Z) (e : N),
    Z.abs m < 2 ^ 53 -> (e <= 1074)%N ->
    (fl (m # Pos.shiftl 1 e) == m # Pos.shiftl 1 e)%Q
}.

(** [Math.round]: the nearest integer, a tie going up. *)
Definition Math_round (x : Q) : Z := Qfloor (x + (1 # 2))%Q.

(** Conversion of an integral number to a signed 32-bit integer, as the
    bitwise operators do to their operands. *)
Definition toInt32 (n : Z) : Z := (n + 2 ^ 31) mod 2 ^ 32 - 2 ^ 31.

(** ** Budget bar *)

(** [Array(...Array(7).keys()).map((i) => String.fromCodePoint(0x2589 + 6 - i))] *)
Definition barBlocks : list jsstring :=
  (fun i => [0x2589 + 6 - i]) <$> seqZ 0 7.

(** What [t += v] appends when [v] may be [undefined]. *)
Definition to_text (v : option jsstring) : jsstring :=
  default (lit "undefined") v.

(** [n] copies of a code unit, none when [n] is not positive: a counting loop
    that appends one each turn. *)
Definition copies (n : Z) (c : Z) : jsstring := replicate (Z.to_nat n) c.

Section Bar.

Variable fl : Q -> Q.

(** [process.stderr.columns]: absent when the stream is not a terminal. *)
Variable stderr_columns : option Z.

(** [Math.max(10, process.stderr.columns || 80) - 2] *)
Definition columns : Z :=
  Z.max 10 (match stderr_columns with
            | Some c => if decide (c = 0) then 80 else c
            | None => 80
            end) - 2.

(** The number of filled eighths of a cell. *)
Definition bwidth (frac : Q) : Z :=
  Z.min (columns * 8)
    (Z.max 0 (Math_round (fl (fl (frac * inject_Z columns) * 8))%Q)).

Definition fullBlocks (frac : Q) : Z := Z.shiftr (toInt32 (bwidth frac)) 3.
Definition fracBlock (frac : Q) : Z := Z.land (toInt32 (bwidth frac)) 7.

(** The cells between the side rules, with the value of [i] followed
    through the three steps. *)
Definition bar_cells (frac : Q) : jsstring :=
  let t := copies (fullBlocks frac) 0x2588 in
  let i := Z.max 0 (fullBlocks frac) in
  let '(t, i) :=
    if decide (fracBlock frac = 0) then (t, i)
    else (t ++ to_text (barBlocks !! Z.to_nat (fracBlock frac)), i + 1) in
  t ++ copies (columns - i) 32.

Definition makeBar (frac : Q) : jsstring :=
  [0x250c] ++ copies columns 0x2500 ++ [0x2510; 10; 0x2502]
  ++ bar_cells frac
  ++ [0x2502; 10; 0x2514] ++ copies columns 0x2500 ++ [0x2518; 10].

(** What [printStats] writes to the error stream, by content: the size
    line, the bar with its colour scheme, and the number whose [toFixed(1)]
    is the percentage of the last line. *)
Inductive scheme := over_limit | within_limit.

Record report := {
  reported_size : Z;
  bar_scheme : scheme;
  bar : jsstring;
  percentage : Q
}.

Definition printStats (size : Z) : report :=
  if decide (size > sizeLimit) then
    let frac := fl (inject_Z (size - sizeLimit) / inject_Z sizeLimit)%Q in
    {| reported_size := size; bar_scheme := over_limit;
       bar := makeBar frac; percentage := fl (100 * frac)%Q |}
  else
    let frac := fl (inject_Z (sizeLimit - size) / inject_Z sizeLimit)%Q in
    {| reported_size := size; bar_scheme := within_limit;
       bar := makeBar frac; percentage := fl (100 * frac)%Q |}.

End Bar.

(** ** The build *)

Section Build.

Variable fl : Q -> Q.
Variable stderr_columns : option Z.
Variable packer : jsstring -> list method.

(** The value of a variable that may not have been assigned. *)
Definition value_of (v : option jsstring) : jsval :=
  match v with
  | Some s => Str s
  | None => Undefined
  end.

(** What a run leaves behind: the report, if it got that far, and either
    the two files ([demo.js], [demo.html]) or the exception that ended it.
    The texts read from [src.js] and [shim.html] are the arguments. *)
Definition build (source shim : jsstring)
  : option report * completion (list Z * jsstring) :=
  match compressSource packer source with
  | Throw e => (None, Throw e)
  | Normal sel =>
    match buf sel with
    | None => (None, Throw undefined_length)
    | Some b =>
      (Some (printStats fl stderr_columns (Z.of_nat (length b))),
       html ← buildHTML (value_of (text sel)) shim; Normal (b, html))
    end
  end.

End Build.

(** ** The output directory

    The file system as [mkdirExistOk] sees it: a tree of directories and
    files under the project root, which is a directory; a path is the list of
    names that leads from the root to an entry.  [stat] and [mkdir] answer as
    the system calls do on such a tree. *)

Inductive errno := ENOENT | EEXIST | ENOTDIR.

Inductive outcome (A : Type) :=
| Done (a : A)
| Fails (code : errno).
Arguments Done {A} a.
Arguments Fails {A} code.

Inductive node :=
| Directory
| File (data : list Z).

(** The entry [todo] leads to from the directory at [here]. *)
Fixpoint walk (fs : gmap (list jsstring) node) (here todo : list jsstring)
  : outcome node :=
  match todo with
  | [] => Done Directory
  | name :: rest =>
    match fs !! (here ++ [name]) with
    | None => Fails ENOENT
    | Some Directory => walk fs (here ++ [name]) rest
    | Some (File data) =>
      match rest with
      | [] => Done (File data)
      | _ :: _ => Fails ENOTDIR
      end
    end
  end.

(** [(await stat(path)).isDirectory()] *)
Definition stat (fs : gmap (list jsstring) node) (path : list jsstring)
  : outcome bool :=
  match walk fs [] path with
  | Done Directory => Done true
  | Done (File _) => Done false
  | Fails code => Fails code
  end.

(** [await mkdir(path)], which makes one directory and not its parents. *)
Definition mkdir (fs : gmap (list jsstring) node) (path : list jsstring)
  : gmap (list jsstring) node * outcome unit :=
  match walk fs [] path with
  | Done _ => (fs, Fails EEXIST)
  | Fails ENOENT =>
    match walk fs [] (removelast path) with
    | Done Directory => (<[path := Directory]> fs, Done ())
    | Done (File _) => (fs, Fails ENOTDIR)
    | Fails code => (fs, Fails code)
    end
  | Fails code => (fs, Fails code)
  end.

(** Create a directory, unless it already exists. *)
Definition mkdirExistOk (path : list jsstring) (fs : gmap (list jsstring) node)
  : gmap (list jsstring) node * outcome unit :=
  match stat fs path with
  | Done true => (fs, Done ())
  | Done false => mkdir fs path
  | Fails ENOENT => mkdir fs path
  | Fails code => (fs, Fails code)
  end.

(** ** Notions of the design document and sample inputs *)

(** The state of the loop once [t] has been taken. *)
Definition chosen (t : jsstring) : selection :=
  {| text := Some t; buf := Some (Buffer_from t) |}.

(** The winner as the design document describes it: the candidate of least
    byte length, the first one seen among equals. *)
Fixpoint first_minimum (best : jsstring) (later : list jsstring) : jsstring :=
  match later with
  | [] => best
  | c :: r =>
    first_minimum
      (if bool_decide (byte_length c < byte_length best)%nat then c else best) r
  end.

(** A name the group of the pattern can match: word characters, at least one. *)
Definition is_identifier (name : jsstring) : bool :=
  match name with
  | [] => false
  | _ :: _ => forallb is_word name
  end.

(** Arithmetic without rounding error, the simplest rounding. *)
Definition no_rounding (x : Q) : Q := x.

(** A packer whose candidates are exactly [candidates]: one method each,
    with no stage output. *)
Definition packer_of (candidates : list jsstring) : jsstring -> list method :=
  fun _ => (fun c => {| contents := c; result := [] |}) <$> candidates.

(** An engine answer with one method: the input cleaned up, and two stage
    outputs of which the later one is read first. *)
Definition sample_packer : jsstring -> list method :=
  fun _ => [{| contents := lit "var a=1;";
               result := [(3, lit "a=1"); (4, lit "abcd")] |}].

(** The euro sign: one code unit, three bytes. *)
Definition euro : jsstring := [0x20AC].

(** The template and the variables of the round-trip example. *)
Definition round_trip_template : jsstring :=
  lit "<p>{{title_html}}</p><script>{{code}}</script>".

Definition round_trip_variables : gmap jsstring jsval :=
  Map_of [(lit "title_html", Str (lit "A &amp; B")); (lit "code", Str (lit "1+1"))].

(** A template with a placeholder the variables above do not have. *)
Definition missing_template : jsstring := lit "<p>{{missing}}</p>".

(** [sub] occurs in [s]. *)
Definition occurs_in (sub s : jsstring) : Prop :=
  exists pre post, s = pre ++ sub ++ post.

(** The names [buildHTML] gives a value to. *)
Definition template_names : list jsstring :=
  [lit "title_html"; lit "title_js"; lit "code"].

(** A tree with a file where the output directory should be. *)
Definition tree_with_file : gmap (list jsstring) node :=
  <[[lit "build"] := File []]> ∅.

(** * Properties *)

(** ** UTF-8 encoding *)

Example Buffer_from_ascii :
  Buffer_from (lit "a=1") = [0x61; 0x3D; 0x31].
Proof. reflexivity. Qed.

Example Buffer_from_e_acute : Buffer_from [0xE9] = [0xC3; 0xA9].
Proof. reflexivity. Qed.

Example Buffer_from_euro : Buffer_from euro = [0xE2; 0x82; 0xAC].
Proof. reflexivity. Qed.

(** U+1F600 is the pair D83D DE00. *)
Example Buffer_from_pair :
  Buffer_from [0xD83D; 0xDE00] = [0xF0; 0x9F; 0x98; 0x80].
Proof. reflexivity. Qed.

Example Buffer_from_lone_surrogate :
  Buffer_from [0xD83D; 0x61] = [0xEF; 0xBF; 0xBD; 0x61].
Proof. reflexivity. Qed.

(** ** Candidate selection *)

Lemma compressSource_step_chosen t output :
  compressSource_step (chosen t) output
  = Normal (chosen (if bool_decide (byte_length output < byte_length t)%nat
                    then output else t)).
Proof.
  unfold compressSource_step, chosen, byte_length; simpl.
  by destruct (bool_decide _).
Qed.

Lemma compressSource_loop_chosen outputs : forall t,
  compressSource_loop (chosen t) outputs
  = Normal (chosen (first_minimum t outputs)).
Proof.
  induction outputs as [|c r IH]; intros t; [done|].
  cbn [compressSource_loop first_minimum].
  rewrite compressSource_step_chosen. apply IH.
Qed.

Lemma compressSource_nonempty packer source c r :
  runPacker packer source = c :: r ->
  compressSource packer source = Normal (chosen (first_minimum c r)).
Proof.
  unfold compressSource. intros ->. apply compressSource_loop_chosen.
Qed.

Lemma first_minimum_le_best later : forall best,
  (byte_length (first_minimum best later) <= byte_length best)%nat.
Proof.
  induction later as [|c r IH]; intros best; simpl; [lia|].
  case_bool_decide; specialize (IH c) as Hc; specialize (IH best); lia.
Qed.

Lemma first_minimum_le_later later : forall best c,
  c ∈ later ->
  (byte_length (first_minimum best later) <= byte_length c)%nat.
Proof.
  induction later as [|d r IH]; intros best c Hc; [by apply elem_of_nil in Hc|].
  apply elem_of_cons in Hc as [->|Hc]; simpl.
  - pose proof (first_minimum_le_best r d).
    pose proof (first_minimum_le_best r best).
    case_bool_decide; lia.
  - by apply IH.
Qed.

Lemma first_minimum_elem later : forall best,
  first_minimum best later ∈ best :: later.
Proof.
  induction later as [|c r IH]; intros best; simpl; [set_solver|].
  case_bool_decide; [right; apply IH|].
  specialize (IH best). apply elem_of_cons in IH as [->|IH]; [left|right; right]; done.
Qed.

Lemma first_minimum_keeps later : forall best,
  (forall c, c ∈ later -> (byte_length best <= byte_length c)%nat) ->
  first_minimum best later = best.
Proof.
  induction later as [|c r IH]; intros best H; simpl; [done|].
  rewrite bool_decide_eq_false_2.
  - apply IH. intros d Hd. apply H. set_solver.
  - assert (byte_length best <= byte_length c)%nat by (apply H; set_solver). lia.
Qed.

Lemma first_minimum_skips earlier : forall best t later,
  (byte_length t < byte_length best)%nat ->
  (forall c, c ∈ earlier -> (byte_length t < byte_length c)%nat) ->
  first_minimum best (earlier ++ t :: later) = first_minimum t later.
Proof.
  induction earlier as [|c r IH]; intros best t later Hb H; simpl.
  - by rewrite bool_decide_eq_true_2.
  - assert (byte_length t < byte_length c)%nat by (apply H; set_solver).
    case_bool_decide; apply IH; try done; intros d Hd; apply H; set_solver.
Qed.

Lemma runPacker_packer_of candidates source :
  runPacker (packer_of candidates) source = candidates.
Proof.
  unfold runPacker, packer_of.
  induction candidates as [|c r IH]; [done|].
  rewrite fmap_cons, bind_cons. simpl. by f_equal.
Qed.

Example runPacker_sample :
  runPacker sample_packer (lit "var a = 1;")
  = [lit "var a=1;"; lit "abcd"; lit "a=1"].
Proof. reflexivity. Qed.

(** C1, selection minimality: when the candidate sequence is not empty,
    [compressSource] returns one of the candidates, and neither its UTF-8
    byte length nor the length of the returned buffer exceeds the UTF-8 byte
    length of any candidate of the sequence. *)
Theorem selection_minimality packer source :
  runPacker packer source <> [] ->
  exists t b,
    compressSource packer source = Normal {| text := Some t; buf := Some b |}
    /\ t ∈ runPacker packer source
    /\ forall c, c ∈ runPacker packer source ->
         (byte_length t <= byte_length c)%nat /\ (length b <= byte_length c)%nat.
Proof.
  destruct (runPacker packer source) as [|c r] eqn: E; [done|]. intros _.
  exists (first_minimum c r), (Buffer_from (first_minimum c r)).
  split; [by apply compressSource_nonempty|].
  split; [apply first_minimum_elem|].
  intros d [->|Hd]%elem_of_cons; fold (byte_length (first_minimum c r)).
  - split; apply first_minimum_le_best.
  - split; by apply first_minimum_le_later.
Qed.

Lemma selection_minimality_sample :
  runPacker sample_packer (lit "var a = 1;") <> []
  /\ exists t b,
       compressSource sample_packer (lit "var a = 1;")
       = Normal {| text := Some t; buf := Some b |}
       /\ t ∈ runPacker sample_packer (lit "var a = 1;")
       /\ forall c, c ∈ runPacker sample_packer (lit "var a = 1;") ->
            (byte_length t <= byte_length c)%nat
            /\ (length b <= byte_length c)%nat.
Proof.
  split; [discriminate|].
  apply (selection_minimality sample_packer (lit "var a = 1;")). discriminate.
Defined.

(** C2, tie-break: a turn of the loop replaces the current best only by a
    candidate strictly shorter in bytes; hence a candidate is returned when
    every earlier candidate is strictly longer and no later one is strictly
    shorter, and of candidates of the same least byte length the first seen
    wins. *)
Theorem tie_break_first_seen packer source earlier t later :
  runPacker packer source = earlier ++ t :: later ->
  (forall c, c ∈ earlier -> (byte_length t < byte_length c)%nat) ->
  (forall c, c ∈ later -> (byte_length t <= byte_length c)%nat) ->
  compressSource packer source = Normal (chosen t)
  /\ forall best output,
       compressSource_step (chosen best) output
       = Normal (if bool_decide (byte_length output < byte_length best)%nat
                 then chosen output else chosen best).
Proof.
  intros E Hearlier Hlater. split.
  - destruct earlier as [|c r]; simpl in E;
      rewrite (compressSource_nonempty _ _ _ _ E).
    + by rewrite first_minimum_keeps.
    + rewrite first_minimum_skips; [|apply Hearlier; set_solver|].
      * by rewrite first_minimum_keeps.
      * intros d Hd. apply Hearlier. set_solver.
  - intros best output. rewrite compressSource_step_chosen.
    by destruct (bool_decide _).
Qed.

Lemma tie_break_abc_xyz :
  (byte_length (lit "abc") = 3)%nat /\ (byte_length (lit "xyz") = 3)%nat
  /\ compressSource (packer_of [lit "abc"; lit "xyz"]) []
     = Normal (chosen (lit "abc"))
  /\ compressSource_step (chosen (lit "abc")) (lit "xyz")
     = Normal (chosen (lit "abc")).
Proof.
  split; [reflexivity|]. split; [reflexivity|].
  destruct (tie_break_first_seen (packer_of [lit "abc"; lit "xyz"]) []
              [] (lit "abc") [lit "xyz"]) as [Hwin Hstep].
  - reflexivity.
  - intros c Hc. by apply elem_of_nil in Hc.
  - intros c ->%list_elem_of_singleton. vm_compute. lia.
  - split; [exact Hwin|]. exact (Hstep (lit "abc") (lit "xyz")).
Defined.

(** C3 as stated fails: with no candidate at all [compressSource] does not
    throw. *)
Lemma empty_sequence_no_throw :
  runPacker (packer_of []) (lit "var a = 1;") = []
  /\ ~ throws (compressSource (packer_of []) (lit "var a = 1;")).
Proof.
  split; [reflexivity|]. intros [e He]. discriminate He.
Qed.

(** C3, amended: with no candidate [compressSource] returns with both of its
    variables still undefined, so no text stands in for a winner; the run
    fails after it, when [build] reads the length of the missing buffer,
    before anything is reported or written. *)
Theorem empty_sequence_undefined fl stderr_columns packer source shim :
  runPacker packer source = [] ->
  compressSource packer source = Normal {| text := None; buf := None |}
  /\ build fl stderr_columns packer source shim = (None, Throw undefined_length).
Proof.
  intros E. unfold build, compressSource. by rewrite E.
Qed.

Lemma empty_sequence_undefined_no_method :
  runPacker (fun _ => []) (lit "var a = 1;") = []
  /\ compressSource (fun _ => []) (lit "var a = 1;")
     = Normal {| text := None; buf := None |}
  /\ build no_rounding None (fun _ => []) (lit "var a = 1;") (lit "{{code}}")
     = (None, Throw undefined_length).
Proof.
  split; [reflexivity|].
  apply (empty_sequence_undefined no_rounding None (fun _ => [])). reflexivity.
Defined.

(** C4 as stated fails: the first candidate has fewer characters and more
    bytes than the second, and the second is returned, not the first seen. *)
Lemma fewer_characters_more_bytes :
  (str_length (euro ++ euro) < str_length (lit "abcde"))%nat
  /\ (byte_length (lit "abcde") <= byte_length (euro ++ euro))%nat
  /\ compressSource (packer_of [euro ++ euro; lit "abcde"]) []
     = Normal (chosen (lit "abcde"))
  /\ lit "abcde" <> euro ++ euro.
Proof.
  split; [vm_compute; lia|]. split; [vm_compute; lia|].
  split; [reflexivity|discriminate].
Qed.

(** C4, amended: of two candidates the second is returned exactly when it is
    strictly shorter in UTF-8 bytes; the numbers of characters play no part,
    so two candidates of the same byte length are a tie, which the first seen
    wins. *)
Theorem encoding_sensitivity packer source a b :
  runPacker packer source = [a; b] ->
  compressSource packer source
  = Normal (chosen (if bool_decide (byte_length b < byte_length a)%nat
                    then b else a))
  /\ (byte_length a = byte_length b ->
      compressSource packer source = Normal (chosen a)).
Proof.
  intros E. rewrite (compressSource_nonempty _ _ _ _ E). simpl.
  split; [done|]. intros ->. by rewrite bool_decide_eq_false_2 by lia.
Qed.

Lemma encoding_sensitivity_euro_abc :
  (str_length euro = 1)%nat /\ (str_length (lit "abc") = 3)%nat
  /\ (byte_length euro = 3)%nat /\ (byte_length (lit "abc") = 3)%nat
  /\ compressSource (packer_of [euro; lit "abc"]) [] = Normal (chosen euro)
  /\ compressSource (packer_of [lit "abc"; euro]) [] = Normal (chosen (lit "abc")).
Proof.
  do 4 (split; [reflexivity|]).
  split.
  - exact (proj2 (encoding_sensitivity (packer_of [euro; lit "abc"]) []
                    euro (lit "abc") eq_refl) eq_refl).
  - exact (proj2 (encoding_sensitivity (packer_of [lit "abc"; euro]) []
                    (lit "abc") euro eq_refl) eq_refl).
Defined.

(** C10, winner consistency: when the candidate sequence is not empty the
    returned buffer is the UTF-8 encoding of the returned text, and [build]
    reports the length of that encoding, writes that encoding as the first
    file and puts that text into the document. *)
Theorem winner_consistency fl stderr_columns packer source shim :
  runPacker packer source <> [] ->
  exists t,
    compressSource packer source
    = Normal {| text := Some t; buf := Some (Buffer_from t) |}
    /\ build fl stderr_columns packer source shim
       = (Some (printStats fl stderr_columns (Z.of_nat (byte_length t))),
          html ← buildHTML (Str t) shim; Normal (Buffer_from t, html)).
Proof.
  destruct (runPacker packer source) as [|c r] eqn: E; [done|]. intros _.
  exists (first_minimum c r). unfold build.
  by rewrite (compressSource_nonempty _ _ _ _ E).
Qed.

Lemma winner_consistency_sample :
  runPacker sample_packer (lit "var a = 1;") <> []
  /\ exists t,
       compressSource sample_packer (lit "var a = 1;")
       = Normal {| text := Some t; buf := Some (Buffer_from t) |}
       /\ build no_rounding None sample_packer (lit "var a = 1;") (lit "<script>{{code}}</script>")
          = (Some (printStats no_rounding None (Z.of_nat (byte_length t))),
             html ← buildHTML (Str t) (lit "<script>{{code}}</script>");
             Normal (Buffer_from t, html)).
Proof.
  split; [discriminate|].
  apply (winner_consistency no_rounding None sample_packer). discriminate.
Defined.

(** ** Global replacement *)

Section ReplaceFacts.

Variable exec_at : jsstring -> option (list jsstring * jsstring).
Hypothesis exec_at_shorter :
  forall s groups rest,
    exec_at s = Some (groups, rest) -> (length rest < length s)%nat.
Variable replacer : list jsstring -> completion jsstring.

Lemma replace_step s :
  replace exec_at exec_at_shorter replacer s
  = match exec_at s with
    | Some (groups, rest) =>
        v ← replacer groups;
        t ← replace exec_at exec_at_shorter replacer rest; Normal (v ++ t)
    | None =>
        match s with
        | [] => Normal []
        | c :: r =>
            t ← replace exec_at exec_at_shorter replacer r; Normal (c :: t)
        end
    end.
Proof.
  funelim (replace exec_at exec_at_shorter replacer s);
    match goal with E : exec_at _ = _ |- _ => by rewrite E end.
Qed.

Lemma matches_step s :
  matches exec_at exec_at_shorter s
  = match exec_at s with
    | Some (groups, rest) => groups :: matches exec_at exec_at_shorter rest
    | None =>
        match s with
        | [] => []
        | c :: r => matches exec_at exec_at_shorter r
        end
    end.
Proof.
  funelim (matches exec_at exec_at_shorter s);
    match goal with E : exec_at _ = _ |- _ => by rewrite E end.
Qed.

(** Where the pattern matches nowhere the text comes back as it is. *)
Lemma replace_no_match s :
  matches exec_at exec_at_shorter s = [] ->
  replace exec_at exec_at_shorter replacer s = Normal s.
Proof.
  induction s as [|c r IH]; rewrite matches_step, replace_step;
    destruct (exec_at _) as [[groups rest]|]; try done.
  intros H. by rewrite IH.
Qed.

End ReplaceFacts.

(** ** Placeholders *)

Lemma is_identifier_cons name :
  is_identifier name = true ->
  exists c w, name = c :: w /\ is_word c = true /\ forallb is_word w = true.
Proof.
  destruct name as [|c w]; [done|]. simpl.
  intros [? ?]%andb_prop. eauto.
Qed.

Lemma word_run_words s : forallb is_word (word_run s).1 = true.
Proof.
  induction s as [|c r IH]; simpl; [done|].
  destruct (is_word c) eqn: E; [|done].
  destruct (word_run r) as [w t]; simpl in *. by rewrite E.
Qed.

Lemma word_run_stop w c x :
  forallb is_word w = true -> is_word c = false ->
  word_run (w ++ c :: x) = (w, c :: x).
Proof.
  intros Hw Hc. induction w as [|a w IH]; simpl in *.
  - by rewrite Hc.
  - apply andb_prop in Hw as [-> Hw]. by rewrite IH.
Qed.

Lemma placeholder_at_placeholder name rest :
  is_identifier name = true ->
  placeholder_at (placeholder name ++ rest)
  = Some ([placeholder name; name], rest).
Proof.
  intros (c & w & -> & Hc & Hw)%is_identifier_cons.
  unfold placeholder_at, placeholder. simpl.
  rewrite Hc, <- app_assoc. simpl.
  by rewrite word_run_stop.
Qed.

Lemma placeholder_at_inv s groups rest :
  placeholder_at s = Some (groups, rest) ->
  exists name, is_identifier name = true
    /\ groups = [placeholder name; name] /\ s = placeholder name ++ rest.
Proof.
  unfold placeholder_at.
  destruct (strip_prefix open_braces s) as [r|] eqn: E1;
    cbn [mbind option_bind]; [|intros [=]].
  pose proof (word_run_app r) as Hr. pose proof (word_run_words r) as Hw.
  destruct (word_run r) as [[|c w] t]; [intros [=]|]. simpl in Hr.
  destruct (strip_prefix close_braces t) as [t'|] eqn: E2;
    cbn [mbind option_bind]; [|intros [=]].
  intros [= <- <-]. exists (c :: w). split; [done|]. split; [done|].
  apply strip_prefix_app in E1, E2. subst s r t.
  unfold placeholder. by rewrite <- !app_assoc.
Qed.

(** A placeholder that starts before another occurrence ends before it. *)
Lemma identifier_then_occurrence name : forall rest pre tail,
  forallb is_word name = true ->
  name ++ close_braces ++ rest = pre ++ open_braces ++ tail ->
  exists pre', pre = name ++ close_braces ++ pre'
    /\ rest = pre' ++ open_braces ++ tail.
Proof.
  induction name as [|a name IH]; intros rest pre tail Hw E; simpl in *.
  - destruct pre as [|x [|y pre']]; simplify_eq/=. by exists pre'.
  - apply andb_prop in Hw as [Ha Hw].
    destruct pre as [|x pre]; simplify_eq/=; try done.
    match goal with E : _ ++ _ = _ |- _ =>
      destruct (IH _ _ _ Hw E) as (pre' & -> & ->) end.
    by exists pre'.
Qed.

Lemma placeholder_overlap n rest pre m post :
  is_identifier n = true -> is_identifier m = true ->
  placeholder n ++ rest = pre ++ placeholder m ++ post ->
  (pre = [] /\ n = m /\ rest = post)
  \/ (exists pre', pre = placeholder n ++ pre'
        /\ rest = pre' ++ placeholder m ++ post).
Proof.
  intros (a & n' & -> & Ha & Hn)%is_identifier_cons
         (b & m' & -> & Hb & Hm)%is_identifier_cons.
  unfold placeholder. rewrite <- !app_assoc.
  destruct pre as [|x [|y pre]]; intros E; simplify_eq/=.
  - left. split; [done|].
    assert (word_run (n' ++ 125 :: 125 :: rest)
            = word_run (m' ++ 125 :: 125 :: post)) as Hrun by congruence.
    rewrite !word_run_stop in Hrun by done. by simplify_eq.
  - right.
    match goal with E : _ :: _ ++ _ = _ |- _ =>
      destruct (identifier_then_occurrence (a :: n') rest pre
                  (b :: m' ++ close_braces ++ post)) as (pre' & -> & ->);
        [by simpl; rewrite Ha|exact E|]
    end.
    exists pre'. by rewrite <- !app_assoc.
Qed.

Lemma placeholder_at_occurrence pre m post groups rest :
  is_identifier m = true ->
  placeholder_at (pre ++ placeholder m ++ post) = Some (groups, rest) ->
  (pre = [] /\ groups = [placeholder m; m] /\ rest = post)
  \/ (exists pre', placeholder_at pre = Some (groups, pre')
        /\ rest = pre' ++ placeholder m ++ post).
Proof.
  intros Hm (n & Hn & -> & E)%placeholder_at_inv.
  symmetry in E.
  apply placeholder_overlap in E as [(-> & -> & ->)|(pre' & -> & ->)]; try done.
  - by left.
  - right. exists pre'. by rewrite placeholder_at_placeholder.
Qed.

Lemma placeholder_at_none_prefix pre x :
  placeholder_at (pre ++ x) = None -> placeholder_at pre = None.
Proof.
  destruct (placeholder_at pre) as [[groups rest]|] eqn: E; [|done].
  apply placeholder_at_inv in E as (n & Hn & _ & ->).
  by rewrite <- app_assoc, placeholder_at_placeholder.
Qed.

Section Occurrence.

Variable replacer : list jsstring -> completion jsstring.

Local Abbreviation scan := (replace placeholder_at placeholder_at_shorter replacer).
Local Abbreviation found := (matches placeholder_at placeholder_at_shorter).

(** An occurrence of a placeholder is met by the scan whatever stands
    before it: the text before, the placeholder and the text after are
    dealt with one after the other. *)
Lemma replace_occurrence m post :
  is_identifier m = true -> forall pre,
  scan (pre ++ placeholder m ++ post)
  = a ← scan pre; v ← replacer [placeholder m; m]; b ← scan post;
    Normal (a ++ v ++ b).
Proof.
  intros Hm pre.
  induction pre as [pre IH] using (induction_ltof1 _ (@length Z)).
  unfold ltof in IH.
  rewrite (replace_step _ _ _ (pre ++ _)).
  destruct (placeholder_at (pre ++ _)) as [[groups rest]|] eqn: E.
  - apply (placeholder_at_occurrence _ _ _ _ _ Hm) in E
      as [(-> & -> & ->)|(pre' & E & ->)].
    + rewrite (replace_step _ _ _ []). simpl.
      by destruct (replacer _), (scan post).
    + rewrite (replace_step _ _ _ pre), E.
      rewrite IH by (by eapply placeholder_at_shorter).
      destruct (replacer groups), (scan pre'); simpl; try done.
      destruct (replacer _), (scan post); simpl; try done.
      by rewrite app_assoc.
  - destruct pre as [|c pre].
    + rewrite app_nil_l in E. by rewrite placeholder_at_placeholder in E.
    + rewrite (replace_step _ _ _ (c :: pre)).
      rewrite (placeholder_at_none_prefix _ _ E).
      simpl. rewrite IH by (simpl; lia).
      destruct (scan pre); simpl; try done.
      by destruct (replacer _), (scan post).
Qed.

Lemma matches_occurrence m post :
  is_identifier m = true -> forall pre,
  found (pre ++ placeholder m ++ post)
  = found pre ++ [placeholder m; m] :: found post.
Proof.
  intros Hm pre.
  induction pre as [pre IH] using (induction_ltof1 _ (@length Z)).
  unfold ltof in IH.
  rewrite (matches_step _ _ (pre ++ _)).
  destruct (placeholder_at (pre ++ _)) as [[groups rest]|] eqn: E.
  - apply (placeholder_at_occurrence _ _ _ _ _ Hm) in E
      as [(-> & -> & ->)|(pre' & E & ->)].
    + by rewrite (matches_step _ _ []).
    + rewrite (matches_step _ _ pre), E.
      by rewrite IH by (by eapply placeholder_at_shorter).
  - destruct pre as [|c pre].
    + rewrite app_nil_l in E. by rewrite placeholder_at_placeholder in E.
    + rewrite (matches_step _ _ (c :: pre)).
      rewrite (placeholder_at_none_prefix _ _ E).
      simpl. by rewrite IH by (simpl; lia).
Qed.

(** The scan returns when the function returns at every match. *)
Lemma replace_returns s :
  (forall groups, groups ∈ found s -> returned (replacer groups)) ->
  returned (scan s).
Proof.
  induction s as [s IH] using (induction_ltof1 _ (@length Z)).
  unfold ltof in IH. rewrite matches_step, replace_step.
  destruct (placeholder_at s) as [[groups rest]|] eqn: E.
  - intros H. destruct (H groups) as [v ->]; [by apply elem_of_cons; left|].
    destruct (IH rest) as [t ->];
      [by eapply placeholder_at_shorter
      |by intros g Hg; apply H, elem_of_cons; right|].
    by eexists.
  - destruct s as [|c r]; [by eexists|].
    intros H. destruct (IH r) as [t ->]; [simpl; lia|done|]. by eexists.
Qed.

(** It throws when the function throws at some match. *)
Lemma replace_throws s groups :
  groups ∈ found s -> throws (replacer groups) ->
  exists groups', groups' ∈ found s
    /\ throws (replacer groups') /\ scan s = replacer groups'.
Proof.
  induction s as [s IH] using (induction_ltof1 _ (@length Z)).
  unfold ltof in IH. rewrite matches_step, replace_step.
  destruct (placeholder_at s) as [[first rest]|] eqn: E.
  - intros Hin Hthrow.
    destruct (replacer first) as [v|e] eqn: Efirst.
    + apply elem_of_cons in Hin as [->|Hin].
      { destruct Hthrow as [e He]. congruence. }
      destruct (IH rest) as (g & Hg & [e He] & Hscan); try done.
      { by eapply placeholder_at_shorter. }
      exists g. split; [by apply elem_of_cons; right|]. split; [by exists e|].
      rewrite Hscan, He. done.
    + exists first. split; [by apply elem_of_cons; left|]. rewrite Efirst.
      split; [by exists e|done].
  - destruct s as [|c r]; [by intros ?%elem_of_nil|].
    intros Hin Hthrow.
    destruct (IH r) as (g & Hg & [e He] & Hscan); try done.
    { simpl; lia. }
    exists g. split; [done|]. split; [by exists e|].
    rewrite Hscan, He. done.
Qed.

End Occurrence.

(** ** Text escaper *)

Example escapeTextHTML_plain :
  escapeTextHTML (lit "Traveler") = Normal (lit "Traveler").
Proof. reflexivity. Qed.

Example escapeTextHTML_ab :
  escapeTextHTML (lit "a<b>c&d") = Normal (lit "a<b>c&d").
Proof. reflexivity. Qed.

Lemma escape_match_amp_lt_gt :
  escape_match [amp_lt_gt]
  = Throw (Error (lit "Unexpected text " ++ quote amp_lt_gt)).
Proof. reflexivity. Qed.

(** The escaper never changes a text: where it returns, it returns its
    argument. *)
Lemma escapeTextHTML_unchanged text out :
  escapeTextHTML text = Normal out -> out = text.
Proof.
  unfold escapeTextHTML. revert out.
  induction text as [|c r IH]; intros out; rewrite replace_step.
  - simpl. congruence.
  - destruct (amp_lt_gt_at (c :: r)) as [[groups rest]|] eqn: E.
    + unfold amp_lt_gt_at in E.
      destruct (strip_prefix amp_lt_gt (c :: r));
        cbn [mbind option_bind] in E; [|done].
      injection E as <- <-. by rewrite escape_match_amp_lt_gt.
    + destruct (replace _ _ _ r) as [t|e]; simpl; [|done].
      intros [= <-]. f_equal. by apply IH.
Qed.

(** C5, on the code: the pattern of [escapeTextHTML] is the three characters
    in a row and not a choice among them, so no ampersand or angle bracket
    is ever replaced.  The text of the design document comes back unescaped,
    and a text that holds the three in a row makes the escaper throw. *)
Theorem escapeTextHTML_escapes_nothing :
  (forall text out, escapeTextHTML text = Normal out -> out = text)
  /\ escapeTextHTML (lit "a<b>c&d") = Normal (lit "a<b>c&d")
  /\ lit "a<b>c&d" <> lit "a&lt;b&gt;c&amp;d"
  /\ escapeTextHTML (lit "x&<>y")
     = Throw (Error (lit "Unexpected text " ++ quote (lit "&<>"))).
Proof.
  split; [apply escapeTextHTML_unchanged|].
  split; [reflexivity|]. split; [discriminate|reflexivity].
Qed.

(** ** Template engine *)

Example evalTemplate_round_trip :
  evalTemplate round_trip_template round_trip_variables
  = Normal (lit "<p>A &amp; B</p><script>1+1</script>").
Proof. vm_compute. reflexivity. Qed.

Example placeholders_round_trip :
  placeholders round_trip_template = [lit "title_html"; lit "code"].
Proof. vm_compute. reflexivity. Qed.

Lemma eval_match_throws variables groups :
  throws (eval_match variables groups) ->
  nullish (Map_get variables (default [] (groups !! 1%nat))) = true
  /\ eval_match variables groups
     = Throw (undefined_variable (default [] (groups !! 1%nat))).
Proof.
  unfold eval_match. intros [e He].
  by destruct (Map_get variables _).
Qed.

Lemma eval_match_nullish variables name :
  nullish (Map_get variables name) = true ->
  throws (eval_match variables [placeholder name; name]).
Proof.
  unfold eval_match. simpl. destruct (Map_get variables name); [| |done];
    intros _; by eexists.
Qed.

Lemma placeholders_elem template groups :
  groups ∈ matches placeholder_at placeholder_at_shorter template ->
  default [] (groups !! 1%nat) ∈ placeholders template.
Proof.
  intros H. unfold placeholders.
  by apply (list_elem_of_fmap_2 (fun g : list jsstring => default [] (g !! 1%nat))).
Qed.

Lemma placeholders_occurrence pre name post :
  is_identifier name = true ->
  placeholders (pre ++ placeholder name ++ post)
  = placeholders pre ++ name :: placeholders post.
Proof.
  intros H. unfold placeholders.
  by rewrite matches_occurrence, fmap_app, fmap_cons.
Qed.

Lemma evalTemplate_returns template variables :
  (forall n, n ∈ placeholders template ->
     nullish (Map_get variables n) = false) ->
  returned (evalTemplate template variables).
Proof.
  intros Hbound. apply replace_returns.
  intros groups Hin. unfold eval_match.
  specialize (Hbound (default [] (groups !! 1%nat))).
  destruct (Map_get variables _); try by eexists.
  all: discriminate Hbound; by apply placeholders_elem.
Qed.

Lemma undefined_variable_inj n m :
  undefined_variable n = undefined_variable m -> n = m.
Proof.
  unfold undefined_variable, quote. intros [= H]. by simplify_list_eq.
Qed.

(** C6, missing variable: a template with a placeholder whose value is
    absent or null makes [evalTemplate] throw the error of an undefined
    variable, which names a placeholder of the template whose value is absent
    or null, the first one of them in the text; no string is returned. *)
Theorem evalTemplate_missing_variable pre name post variables :
  is_identifier name = true ->
  nullish (Map_get variables name) = true ->
  exists missing,
    missing ∈ placeholders (pre ++ placeholder name ++ post)
    /\ nullish (Map_get variables missing) = true
    /\ evalTemplate (pre ++ placeholder name ++ post) variables
       = Throw (undefined_variable missing)
    /\ ~ returned (evalTemplate (pre ++ placeholder name ++ post) variables)
    /\ ((forall n, n ∈ placeholders pre ->
           nullish (Map_get variables n) = false) -> missing = name).
Proof.
  intros Hname Hnull.
  destruct (replace_throws (eval_match variables)
              (pre ++ placeholder name ++ post) [placeholder name; name])
    as (groups & Hin & Hthrow & Hscan).
  - rewrite matches_occurrence by done. apply elem_of_app. right. by left.
  - by apply eval_match_nullish.
  - apply eval_match_throws in Hthrow as [Hmissing Hthrow].
    exists (default [] (groups !! 1%nat)).
    split; [by apply placeholders_elem|].
    split; [done|]. unfold evalTemplate. rewrite Hscan, Hthrow.
    split; [done|]. split; [by intros [out ?]|].
    intros [a Ha]%evalTemplate_returns. unfold evalTemplate in Ha.
    destruct (eval_match_throws variables [placeholder name; name])
      as [_ Hfirst]; [by apply eval_match_nullish|].
    rewrite replace_occurrence, Ha in Hscan by done. simpl in Hscan.
    rewrite Hfirst, Hthrow in Hscan. simpl in Hscan.
    symmetry. apply undefined_variable_inj. congruence.
Qed.

Lemma evalTemplate_missing_variable_sample :
  missing_template = lit "<p>" ++ placeholder (lit "missing") ++ lit "</p>"
  /\ is_identifier (lit "missing") = true
  /\ nullish (Map_get round_trip_variables (lit "missing")) = true
  /\ exists missing,
       missing ∈ placeholders missing_template
       /\ nullish (Map_get round_trip_variables missing) = true
       /\ evalTemplate missing_template round_trip_variables
          = Throw (undefined_variable missing)
       /\ ~ returned (evalTemplate missing_template round_trip_variables)
       /\ ((forall n, n ∈ placeholders (lit "<p>") ->
              nullish (Map_get round_trip_variables n) = false) ->
           missing = lit "missing").
Proof.
  split; [reflexivity|]. split; [reflexivity|]. split; [reflexivity|].
  apply (evalTemplate_missing_variable (lit "<p>") (lit "missing") (lit "</p>")
           round_trip_variables); reflexivity.
Defined.

(** C7, substitution: when every placeholder of the template has a value
    that is neither absent nor null, [evalTemplate] returns a text in which
    each occurrence of a placeholder stands replaced by the value of its
    identifier, between the results for the text before it and for the text
    after it; a template without placeholders is returned as it is. *)
Theorem evalTemplate_substitution template variables :
  (forall n, n ∈ placeholders template ->
     nullish (Map_get variables n) = false) ->
  exists out,
    evalTemplate template variables = Normal out
    /\ (forall pre name post,
          is_identifier name = true ->
          template = pre ++ placeholder name ++ post ->
          exists a b value,
            Map_get variables name = Str value
            /\ evalTemplate pre variables = Normal a
            /\ evalTemplate post variables = Normal b
            /\ out = a ++ value ++ b)
    /\ (placeholders template = [] -> out = template).
Proof.
  intros Hbound.
  destruct (evalTemplate_returns template variables Hbound) as [out Hout].
  exists out. split; [done|]. split.
  - intros pre name post Hname ->. unfold evalTemplate in *.
    rewrite replace_occurrence in Hout by done.
    unfold eval_match in Hout. simpl in Hout.
    destruct (replace _ _ _ pre) as [a|]; [simpl in Hout|done].
    destruct (Map_get variables name) as [| |value]; try done. simpl in Hout.
    destruct (replace _ _ _ post) as [b|]; [simpl in Hout|done].
    exists a, b, value. by simplify_eq.
  - intros Hnone%fmap_nil_inv.
    unfold evalTemplate in Hout. rewrite replace_no_match in Hout by done.
    by simplify_eq.
Qed.

Lemma evalTemplate_substitution_round_trip :
  (forall n, n ∈ placeholders round_trip_template ->
     nullish (Map_get round_trip_variables n) = false)
  /\ exists out,
       evalTemplate round_trip_template round_trip_variables = Normal out
       /\ out = lit "<p>A &amp; B</p><script>1+1</script>"
       /\ placeholders out = []
       /\ forall pre name post,
            is_identifier name = true ->
            round_trip_template = pre ++ placeholder name ++ post ->
            exists a b value,
              Map_get round_trip_variables name = Str value
              /\ evalTemplate pre round_trip_variables = Normal a
              /\ evalTemplate post round_trip_variables = Normal b
              /\ out = a ++ value ++ b.
Proof.
  assert (forall n, n ∈ placeholders round_trip_template ->
            nullish (Map_get round_trip_variables n) = false) as Hbound.
  { intros n Hn.
    change (n ∈ [lit "title_html"; lit "code"]) in Hn.
    apply elem_of_cons in Hn as [->|Hn]; [reflexivity|].
    apply list_elem_of_singleton in Hn as ->. reflexivity. }
  split; [exact Hbound|].
  destruct (evalTemplate_substitution round_trip_template round_trip_variables
              Hbound) as (out & Hout & Hocc & _).
  exists out. split; [exact Hout|].
  assert (out = lit "<p>A &amp; B</p><script>1+1</script>") as ->.
  { change (Normal (lit "<p>A &amp; B</p><script>1+1</script>") = Normal out)
      in Hout. congruence. }
  split; [reflexivity|]. split; [reflexivity|exact Hocc].
Defined.

(** ** Budget bar *)

Example barBlocks_value :
  barBlocks = [[0x258F]; [0x258E]; [0x258D]; [0x258C]; [0x258B]; [0x258A]; [0x2589]].
Proof. reflexivity. Qed.

(** Half of 78 cells: 39 full blocks and 39 blanks. *)
Example bar_cells_half :
  bar_cells no_rounding None (1 # 2) = copies 39 0x2588 ++ copies 39 32.
Proof. reflexivity. Qed.

(** Three eighths left over: the glyph written is the one for one half. *)
Example bar_cells_three_eighths :
  bwidth no_rounding None (3 # 624) = 3
  /\ bar_cells no_rounding None (3 # 624) = [0x258C] ++ copies 77 32.
Proof. split; reflexivity. Qed.

Lemma no_rounding_binary64 : binary64_rounding no_rounding.
Proof. by split. Qed.

Lemma Math_round_le x y : (x <= y)%Q -> Math_round x <= Math_round y.
Proof.
  intros H. apply Qfloor_resp_le, Qplus_le_compat; [done|apply Qle_refl].
Qed.

Lemma Math_round_eq x y : (x == y)%Q -> Math_round x = Math_round y.
Proof.
  intros H. apply Z.le_antisymm; apply Math_round_le; rewrite H; apply Qle_refl.
Qed.

Lemma Math_round_integer n : Math_round (inject_Z n) = n.
Proof.
  unfold Math_round, Qfloor, Qplus, inject_Z. simpl.
  symmetry. apply (Z.div_unique _ _ _ 1); lia.
Qed.

Lemma toInt32_small n : 0 <= n < 2 ^ 31 -> toInt32 n = n.
Proof.
  intros H. unfold toInt32. rewrite Z.mod_small; lia.
Qed.

Lemma columns_at_least stderr_columns : 8 <= columns stderr_columns.
Proof. unfold columns. lia. Qed.

Section BarFacts.

Variable fl : Q -> Q.
Hypothesis fl_rounding : binary64_rounding fl.
Variable stderr_columns : option Z.

Local Abbreviation W := (columns stderr_columns).

Lemma fl_eq x y : (x == y)%Q -> (fl x == fl y)%Q.
Proof.
  intros H. apply Qle_antisym; apply (fl_monotone _ fl_rounding);
    rewrite H; apply Qle_refl.
Qed.

Lemma fl_integer n : Z.abs n < 2 ^ 53 -> (fl (inject_Z n) == inject_Z n)%Q.
Proof. intros H. by apply (fl_representable _ fl_rounding n 0). Qed.

(** The product as the bar computes it, for a dyadic fraction whose
    intermediate results are representable. *)
Lemma scaled_dyadic (m : Z) (e : N) :
  Z.abs (m * W * 8) < 2 ^ 53 -> (e <= 1074)%N ->
  (fl (fl ((m # Pos.shiftl 1 e) * inject_Z W) * 8)
   == (m * W * 8) # Pos.shiftl 1 e)%Q.
Proof.
  intros Hm He.
  assert ((m # Pos.shiftl 1 e) * inject_Z W == (m * W) # Pos.shiftl 1 e)%Q
    as E1 by (unfold Qeq; simpl; lia).
  transitivity (fl (((m * W) # Pos.shiftl 1 e) * 8)).
  - apply fl_eq, Qmult_comp; [|reflexivity].
    transitivity (fl ((m * W) # Pos.shiftl 1 e)); [by apply fl_eq|].
    apply (fl_representable _ fl_rounding); lia.
  - transitivity (fl ((m * W * 8) # Pos.shiftl 1 e)).
    + apply fl_eq. unfold Qeq; simpl; lia.
    + by apply (fl_representable _ fl_rounding).
Qed.

Lemma bwidth_le f f' :
  (f <= f')%Q -> bwidth fl stderr_columns f <= bwidth fl stderr_columns f'.
Proof.
  intros H. unfold bwidth.
  pose proof (columns_at_least stderr_columns) as HW.
  assert (Math_round (fl (fl (f * inject_Z W) * 8))
          <= Math_round (fl (fl (f' * inject_Z W) * 8))); [|lia].
  apply Math_round_le, (fl_monotone _ fl_rounding).
  apply Qmult_le_compat_r; [|done].
  apply (fl_monotone _ fl_rounding).
  apply Qmult_le_compat_r; [done|].
  change 0%Q with (inject_Z 0). rewrite <- Zle_Qle. lia.
Qed.

Lemma bwidth_eq f f' :
  (f == f')%Q -> bwidth fl stderr_columns f = bwidth fl stderr_columns f'.
Proof.
  intros H. apply Z.le_antisymm; apply bwidth_le; rewrite H; apply Qle_refl.
Qed.

Lemma bwidth_range f : 0 <= bwidth fl stderr_columns f <= W * 8.
Proof.
  unfold bwidth. pose proof (columns_at_least stderr_columns). lia.
Qed.

Lemma bwidth_integer (n : Z) :
  Z.abs (n * W * 8) < 2 ^ 53 ->
  bwidth fl stderr_columns (inject_Z n) = Z.min (W * 8) (Z.max 0 (n * W * 8)).
Proof.
  intros H. unfold bwidth.
  rewrite (Math_round_eq _ (inject_Z (n * W * 8))).
  - by rewrite Math_round_integer.
  - by apply (scaled_dyadic n 0).
Qed.

(** The cells, by the number of filled eighths. *)
Lemma bar_cells_by_bwidth f :
  W < 2 ^ 28 ->
  bar_cells fl stderr_columns f
  = copies (bwidth fl stderr_columns f / 8) 0x2588
    ++ (if decide (bwidth fl stderr_columns f mod 8 = 0) then
          copies (W - bwidth fl stderr_columns f / 8) 32
        else
          to_text (barBlocks !! Z.to_nat (bwidth fl stderr_columns f mod 8))
          ++ copies (W - (bwidth fl stderr_columns f / 8 + 1)) 32).
Proof.
  intros HW. pose proof (bwidth_range f) as Hn.
  unfold bar_cells, fullBlocks, fracBlock.
  rewrite toInt32_small by lia.
  rewrite Z.shiftr_div_pow2 by lia.
  change 7 with (Z.ones 3). rewrite Z.land_ones by lia.
  change (2 ^ 3) with 8.
  assert (0 <= bwidth fl stderr_columns f / 8) by (apply Z.div_pos; lia).
  rewrite Z.max_r by done.
  destruct (decide (bwidth fl stderr_columns f mod 8 = 0)); [done|].
  by rewrite <- app_assoc.
Qed.

End BarFacts.

Lemma makeBar_eq fl stderr_columns f f' :
  binary64_rounding fl -> (f == f')%Q ->
  makeBar fl stderr_columns f = makeBar fl stderr_columns f'.
Proof.
  intros Hfl H. unfold makeBar, bar_cells, fullBlocks, fracBlock.
  by rewrite (bwidth_eq fl Hfl stderr_columns f f' H).
Qed.

(** The table read at a remainder from 1 to 6 gives a glyph, the one a place
    further down the table than the remainder's own. *)
Lemma barBlocks_lookup r :
  0 <= r < 7 -> barBlocks !! Z.to_nat r = Some [0x258F - r].
Proof.
  intros H.
  assert (r = 0 \/ r = 1 \/ r = 2 \/ r = 3 \/ r = 4 \/ r = 5 \/ r = 6)
    as Hr by lia.
  destruct_or!; subst r; reflexivity.
Qed.

(** With seven eighths left over the cell written is no glyph: the table has
    no entry 7. *)
Lemma bar_cells_remainder_seven fl stderr_columns f :
  binary64_rounding fl ->
  columns stderr_columns < 2 ^ 28 ->
  bwidth fl stderr_columns f mod 8 = 7 ->
  bar_cells fl stderr_columns f
  = copies (bwidth fl stderr_columns f / 8) 0x2588
    ++ lit "undefined"
    ++ copies (columns stderr_columns - (bwidth fl stderr_columns f / 8 + 1)) 32.
Proof.
  intros Hfl HW H7. rewrite bar_cells_by_bwidth by done.
  rewrite H7. by rewrite decide_False by done.
Qed.

(** C8, on the code: [makeBar] looks the partial glyph up at the remainder
    itself, and the table of seven glyphs is numbered from 0.  For a fraction
    of 11/1024 on a stream of 80 columns, which is what a size of 1013 bytes
    gives, 7 eighths are filled, and the cell that should hold a glyph holds
    the nine letters of "undefined". *)
Theorem makeBar_remainder_seven fl :
  binary64_rounding fl ->
  bwidth fl None (11 # 1024) = 7
  /\ barBlocks !! Z.to_nat 7 = None
  /\ bar_cells fl None (11 # 1024) = lit "undefined" ++ copies 77 32
  /\ bar (printStats fl None 1013) = makeBar fl None (11 # 1024).
Proof.
  intros Hfl.
  assert (bwidth fl None (11 # 1024) = 7) as H7.
  { unfold bwidth.
    rewrite (Math_round_eq _ ((11 * columns None * 8) # Pos.shiftl 1 10));
      [reflexivity|].
    by apply (scaled_dyadic fl Hfl None 11 10). }
  split; [done|]. split; [reflexivity|]. split.
  - rewrite bar_cells_remainder_seven by (done || by rewrite H7).
    by rewrite H7.
  - unfold printStats. rewrite decide_False by done. simpl.
    apply makeBar_eq; [done|].
    by apply (fl_representable _ Hfl 11 10).
Qed.

Lemma makeBar_remainder_seven_default :
  binary64_rounding no_rounding
  /\ bwidth no_rounding None (11 # 1024) = 7
  /\ barBlocks !! Z.to_nat 7 = None
  /\ bar_cells no_rounding None (11 # 1024) = lit "undefined" ++ copies 77 32
  /\ bar (printStats no_rounding None 1013) = makeBar no_rounding None (11 # 1024).
Proof.
  split; [exact no_rounding_binary64|].
  exact (makeBar_remainder_seven no_rounding no_rounding_binary64).
Defined.

(** C9, monotonicity and endpoints: for a fixed width the number of filled
    eighths does not decrease when the fraction grows; it is 0 at fraction 0
    and eight times the number of cells at fraction 1, where every cell is
    drawn full. *)
Theorem bwidth_monotone_endpoints fl stderr_columns :
  binary64_rounding fl ->
  columns stderr_columns < 2 ^ 28 ->
  (forall f f' : Q, (0 <= f)%Q -> (f <= f')%Q -> (f' <= 1)%Q ->
     bwidth fl stderr_columns f <= bwidth fl stderr_columns f')
  /\ bwidth fl stderr_columns 0 = 0
  /\ bwidth fl stderr_columns 1 = columns stderr_columns * 8
  /\ bar_cells fl stderr_columns 1 = copies (columns stderr_columns) 0x2588.
Proof.
  intros Hfl HW. pose proof (columns_at_least stderr_columns) as H8.
  assert (bwidth fl stderr_columns 1 = columns stderr_columns * 8) as H1.
  { change 1%Q with (inject_Z 1).
    rewrite (bwidth_integer fl Hfl stderr_columns 1) by lia. lia. }
  split; [intros f f' _ H _; by apply bwidth_le|].
  split.
  { change 0%Q with (inject_Z 0).
    rewrite (bwidth_integer fl Hfl stderr_columns 0) by lia. lia. }
  split; [done|].
  rewrite bar_cells_by_bwidth by done. rewrite H1.
  rewrite Z.mod_mul, Z.div_mul by done.
  rewrite decide_True by done. rewrite Z.sub_diag. apply app_nil_r.
Qed.

Lemma bwidth_monotone_endpoints_default :
  binary64_rounding no_rounding
  /\ columns None < 2 ^ 28
  /\ (forall f f' : Q, (0 <= f)%Q -> (f <= f')%Q -> (f' <= 1)%Q ->
        bwidth no_rounding None f <= bwidth no_rounding None f')
  /\ bwidth no_rounding None 0 = 0
  /\ bwidth no_rounding None 1 = columns None * 8
  /\ bar_cells no_rounding None 1 = copies (columns None) 0x2588.
Proof.
  split; [exact no_rounding_binary64|]. split; [reflexivity|].
  exact (bwidth_monotone_endpoints no_rounding None no_rounding_binary64 eq_refl).
Defined.

(** * Further properties *)

(** ** Candidate selection *)

Lemma chosen_inj t t' : chosen t = chosen t' -> t = t'.
Proof. unfold chosen. congruence. Qed.

Lemma compressSource_empty packer source :
  runPacker packer source = [] ->
  compressSource packer source = Normal {| text := None; buf := None |}.
Proof. unfold compressSource. by intros ->. Qed.

Lemma runPacker_nil packer source :
  runPacker packer source = [] <-> packer source = [].
Proof.
  unfold runPacker. destruct (packer source) as [|m ms]; [done|].
  by rewrite bind_cons.
Qed.

(** X1: [compressSource] never throws: the read of [buf.length] is guarded by
    the test of [text], and the two variables are assigned together.  It
    returns a winner exactly when the engine answers with at least one
    method, and then the buffer is defined along with the text. *)
Theorem compressSource_returns packer source :
  exists sel,
    compressSource packer source = Normal sel
    /\ (text sel = None <-> packer source = [])
    /\ (text sel = None <-> buf sel = None).
Proof.
  destruct (runPacker packer source) as [|c r] eqn: E.
  - exists {| text := None; buf := None |}.
    split; [by apply compressSource_empty|].
    by rewrite <- runPacker_nil.
  - exists (chosen (first_minimum c r)).
    split; [by apply compressSource_nonempty|].
    split; [|done]. split; [done|].
    intros H%runPacker_nil. congruence.
Qed.

Lemma first_minimum_app l1 : forall best l2,
  first_minimum best (l1 ++ l2) = first_minimum (first_minimum best l1) l2.
Proof. induction l1 as [|c r IH]; intros best l2; simpl; [done|apply IH]. Qed.

Lemma first_minimum_cons r : forall best c,
  first_minimum best (c :: r)
  = if bool_decide (byte_length (first_minimum c r) < byte_length best)%nat
    then first_minimum c r else best.
Proof.
  induction r as [|d r IH]; intros best c; [done|].
  change (first_minimum best (c :: d :: r))
    with (first_minimum
            (if bool_decide (byte_length c < byte_length best)%nat
             then c else best) (d :: r)).
  rewrite IH, (IH c d).
  repeat case_bool_decide; try done; lia.
Qed.

(** X2: the candidates of two runs put one after the other have as winner
    the better of the two winners, the earlier one when they tie; so a
    sequence can be judged piece by piece. *)
Theorem compressSource_app packer source packer1 source1 packer2 source2 w1 w2 :
  packer source = packer1 source1 ++ packer2 source2 ->
  compressSource packer1 source1 = Normal (chosen w1) ->
  compressSource packer2 source2 = Normal (chosen w2) ->
  compressSource packer source
  = Normal (chosen (if bool_decide (byte_length w2 < byte_length w1)%nat
                    then w2 else w1)).
Proof.
  intros E H1 H2.
  assert (runPacker packer source
          = runPacker packer1 source1 ++ runPacker packer2 source2) as Erun.
  { unfold runPacker. by rewrite E, bind_app. }
  destruct (runPacker packer1 source1) as [|c1 r1] eqn: E1.
  { rewrite compressSource_empty in H1 by done. discriminate. }
  destruct (runPacker packer2 source2) as [|c2 r2] eqn: E2.
  { rewrite compressSource_empty in H2 by done. discriminate. }
  rewrite (compressSource_nonempty _ _ _ _ E1) in H1.
  rewrite (compressSource_nonempty _ _ _ _ E2) in H2.
  injection H1 as H1 _. injection H2 as H2 _. subst w1 w2.
  rewrite (compressSource_nonempty _ _ c1 (r1 ++ c2 :: r2)) by done.
  by rewrite first_minimum_app, first_minimum_cons.
Qed.

Lemma compressSource_app_sample :
  compressSource (packer_of [lit "abcd"; lit "xyz"; lit "abc"]) []
  = Normal (chosen (if bool_decide (byte_length (lit "abc")
                                    < byte_length (lit "xyz"))%nat
                    then lit "abc" else lit "xyz")).
Proof.
  apply (compressSource_app _ [] (packer_of [lit "abcd"; lit "xyz"]) []
           (packer_of [lit "abc"]) []); reflexivity.
Defined.

(** X3: the byte length of the winner does not depend on the order of the
    candidates: two runs whose candidates are the same up to their order
    return winners of the same byte length (the winners themselves may be
    different candidates of that length). *)
Theorem compressSource_order packer source packer' source' t :
  runPacker packer source ≡ₚ runPacker packer' source' ->
  compressSource packer source = Normal (chosen t) ->
  exists t',
    compressSource packer' source' = Normal (chosen t')
    /\ byte_length t' = byte_length t.
Proof.
  intros Hperm H.
  destruct (runPacker packer source) as [|c r] eqn: E.
  { rewrite compressSource_empty in H by done. discriminate. }
  rewrite (compressSource_nonempty _ _ _ _ E) in H.
  injection H as H _. subst t.
  destruct (runPacker packer' source') as [|c' r'] eqn: E'.
  { by apply Permutation_nil_r in Hperm. }
  exists (first_minimum c' r').
  split; [by apply compressSource_nonempty|].
  assert (forall b l d, d ∈ b :: l ->
            (byte_length (first_minimum b l) <= byte_length d)%nat) as Hmin.
  { intros b l d [->|Hd]%elem_of_cons;
      [apply first_minimum_le_best|by apply first_minimum_le_later]. }
  apply Nat.le_antisymm; apply Hmin.
  - rewrite <- Hperm. apply first_minimum_elem.
  - rewrite Hperm. apply first_minimum_elem.
Qed.

Lemma compressSource_order_sample :
  exists t',
    compressSource (packer_of [lit "xyz"; lit "abcd"; lit "abc"]) []
    = Normal (chosen t')
    /\ byte_length t' = byte_length (lit "abc").
Proof.
  apply (compressSource_order (packer_of [lit "abc"; lit "xyz"; lit "abcd"]) []).
  - rewrite !runPacker_packer_of.
    apply (Permutation_cons_append [lit "xyz"; lit "abcd"] (lit "abc")).
  - reflexivity.
Defined.



Lemma Buffer_from_bounds_upto n : forall s,
  (length s <= n)%nat ->
  (length s <= byte_length s <= 3 * length s)%nat.
Proof.
  unfold byte_length.
  induction n as [|n IH]; intros [|c r] Hn; simpl in *; try lia.
  pose proof (IH r) as Hr.
  repeat case_bool_decide; rewrite ?length_app; simpl; try lia.
  destruct (is_high_surrogate c).
  - destruct r as [|d r']; simpl in *; [lia|].
    pose proof (IH r') as Hr'.
    destruct (is_low_surrogate d); rewrite ?length_app; simpl; lia.
  - destruct (is_low_surrogate c); rewrite ?length_app; simpl; lia.
Qed.

Lemma Buffer_from_ascii_units s :
  Forall (fun c => c < 0x80) s -> Buffer_from s = s.
Proof.
  induction 1 as [|c r Hc _ IH]; simpl; [done|].
  rewrite bool_decide_eq_true_2 by done. simpl. by rewrite IH.
Qed.

(** X5: the size of the winner, which is what the statistics report, lies
    between the number of code units of the winning text and three times
    that number; for a text of ASCII characters the buffer holds the code
    units themselves, so the size is the number of characters. *)
Theorem compressSource_size packer source t b :
  compressSource packer source = Normal {| text := Some t; buf := Some b |} ->
  (str_length t <= length b <= 3 * str_length t)%nat
  /\ (Forall (fun c => c < 0x80) t -> b = t).
Proof.
  intros H.
  destruct (runPacker packer source) as [|c r] eqn: E.
  { rewrite compressSource_empty in H by done. discriminate. }
  rewrite (compressSource_nonempty _ _ _ _ E) in H.
  injection H as <- <-. split.
  - by apply (Buffer_from_bounds_upto (length (first_minimum c r))).
  - apply Buffer_from_ascii_units.
Qed.

Lemma compressSource_size_sample :
  (str_length (lit "a=1") <= length (Buffer_from (lit "a=1"))
   <= 3 * str_length (lit "a=1"))%nat
  /\ (Forall (fun c => c < 0x80) (lit "a=1")
      -> Buffer_from (lit "a=1") = lit "a=1").
Proof.
  apply (compressSource_size sample_packer (lit "var a = 1;")). reflexivity.
Defined.

(** ** Text escaper *)

Lemma strip_prefix_complete p rest : strip_prefix p (p ++ rest) = Some rest.
Proof.
  induction p as [|a p IH]; simpl; [by destruct rest|].
  by rewrite decide_True.
Qed.

Lemma escapeTextHTML_occurrence pre : forall post,
  escapeTextHTML (pre ++ amp_lt_gt ++ post)
  = Throw (Error (lit "Unexpected text " ++ quote amp_lt_gt)).
Proof.
  unfold escapeTextHTML.
  induction pre as [|c pre IH]; intros post; rewrite replace_step.
  - unfold amp_lt_gt_at. rewrite app_nil_l, strip_prefix_complete.
    cbn [mbind option_bind]. by rewrite escape_match_amp_lt_gt.
  - destruct (amp_lt_gt_at _) as [[groups rest]|] eqn: E.
    + unfold amp_lt_gt_at in E.
      destruct (strip_prefix amp_lt_gt _);
        cbn [mbind option_bind] in E; [|done].
      injection E as <- <-. by rewrite escape_match_amp_lt_gt.
    + cbn [app]. by rewrite IH.
Qed.

Lemma escapeTextHTML_no_occurrence text :
  ~ occurs_in amp_lt_gt text -> escapeTextHTML text = Normal text.
Proof.
  unfold escapeTextHTML.
  induction text as [|c r IH]; intros Hno; rewrite replace_step; [done|].
  destruct (amp_lt_gt_at _) as [[groups rest]|] eqn: E.
  - unfold amp_lt_gt_at in E.
    destruct (strip_prefix amp_lt_gt (c :: r)) as [rest'|] eqn: E';
      cbn [mbind option_bind] in E; [|done].
    destruct Hno. exists [], rest'. by apply strip_prefix_app in E'.
  - rewrite IH; [done|].
    intros (pre & post & ->). apply Hno. by exists (c :: pre), post.
Qed.

(** X6: what [escapeTextHTML] does for every text: it throws when the three
    characters ampersand, less-than, greater-than occur in a row somewhere in
    the text, and returns the text as it is when they do not. *)
Theorem escapeTextHTML_behaviour text :
  (occurs_in amp_lt_gt text ->
   escapeTextHTML text
   = Throw (Error (lit "Unexpected text " ++ quote amp_lt_gt)))
  /\ (~ occurs_in amp_lt_gt text -> escapeTextHTML text = Normal text).
Proof.
  split.
  - intros (pre & post & ->). apply escapeTextHTML_occurrence.
  - apply escapeTextHTML_no_occurrence.
Qed.

(** ** Template engine *)

Section Agreement.

Variable replacer replacer' : list jsstring -> completion jsstring.

(** The result depends on the function only through its values at the
    matches. *)
Lemma replace_agree s :
  (forall groups, groups ∈ matches placeholder_at placeholder_at_shorter s ->
     replacer groups = replacer' groups) ->
  replace placeholder_at placeholder_at_shorter replacer s
  = replace placeholder_at placeholder_at_shorter replacer' s.
Proof.
  induction s as [s IH] using (induction_ltof1 _ (@length Z)).
  unfold ltof in IH. rewrite matches_step, !replace_step.
  destruct (placeholder_at s) as [[groups rest]|] eqn: E.
  - intros H. rewrite (H groups) by (by apply elem_of_cons; left).
    rewrite IH; [done|by eapply placeholder_at_shorter|].
    intros g Hg. by apply H, elem_of_cons; right.
  - destruct s as [|c r]; [done|].
    intros H. rewrite IH; [done|simpl; lia|done].
Qed.

End Agreement.

(** X7: [evalTemplate] looks at the variables only under the names of the
    placeholders of the template: two sets of variables that agree on those
    names give the same result, be it a text or an error.  Variables the
    template does not mention are ignored. *)
Theorem evalTemplate_agree template variables variables' :
  (forall n, n ∈ placeholders template ->
     Map_get variables n = Map_get variables' n) ->
  evalTemplate template variables = evalTemplate template variables'.
Proof.
  intros H. apply replace_agree.
  intros groups Hin%placeholders_elem. unfold eval_match. by rewrite (H _ Hin).
Qed.

Lemma evalTemplate_agree_sample :
  evalTemplate round_trip_template round_trip_variables
  = evalTemplate round_trip_template
      (<[lit "unused" := Str (lit "x")]> round_trip_variables).
Proof.
  apply evalTemplate_agree. intros n Hn.
  change (n ∈ [lit "title_html"; lit "code"]) in Hn.
  apply elem_of_cons in Hn as [->|Hn]; [reflexivity|].
  apply list_elem_of_singleton in Hn as ->. reflexivity.
Defined.

(** ** Document assembly *)

(** The variables [buildHTML] passes on: the escaper leaves the title as it
    is. *)
Lemma buildHTML_evalTemplate source shim :
  buildHTML source shim
  = evalTemplate shim
      (Map_of [(lit "title_html", Str title);
               (lit "title_js", Str (quote title));
               (lit "code", source)]).
Proof. reflexivity. Qed.

Lemma buildHTML_foreign_name source n :
  n ∉ template_names ->
  Map_get (Map_of [(lit "title_html", Str title);
                   (lit "title_js", Str (quote title));
                   (lit "code", source)]) n = Undefined.
Proof.
  intros Hn. unfold Map_get, Map_of. simpl.
  rewrite !lookup_insert_ne, lookup_empty; [done|..];
    intros <-; apply Hn; unfold template_names; set_solver.
Qed.

Lemma buildHTML_own_name source n :
  n ∈ template_names ->
  nullish (Map_get (Map_of [(lit "title_html", Str title);
                            (lit "title_js", Str (quote title));
                            (lit "code", Str source)]) n) = false.
Proof.
  unfold template_names. intros Hn.
  repeat (apply elem_of_cons in Hn as [->|Hn]; [reflexivity|]).
  by apply elem_of_nil in Hn.
Qed.

Lemma buildHTML_returns_own source shim :
  (forall n, n ∈ placeholders shim -> n ∈ template_names) ->
  returned (buildHTML (Str source) shim).
Proof.
  rewrite buildHTML_evalTemplate. intros H. apply evalTemplate_returns.
  intros n Hn. by apply buildHTML_own_name, H.
Qed.

Lemma buildHTML_throws_foreign source shim n :
  n ∈ placeholders shim -> (n ∉ template_names) ->
  exists m, m ∈ placeholders shim /\ (m ∉ template_names)
    /\ buildHTML (Str source) shim = Throw (undefined_variable m).
Proof.
  rewrite buildHTML_evalTemplate.
  intros (groups & -> & Hin)%list_elem_of_fmap Hforeign.
  destruct (replace_throws (eval_match
              (Map_of [(lit "title_html", Str title);
                       (lit "title_js", Str (quote title));
                       (lit "code", Str source)])) shim groups)
    as (groups' & Hin' & Hthrow & Hscan); [done| |].
  { unfold eval_match. rewrite buildHTML_foreign_name by done. by eexists. }
  apply eval_match_throws in Hthrow as [Hnull Hthrow].
  exists (default [] (groups' !! 1%nat)).
  split; [by apply placeholders_elem|]. split.
  - intros Hown. by rewrite (buildHTML_own_name source) in Hnull.
  - unfold evalTemplate. by rewrite Hscan.
Qed.

(** X8: [buildHTML] returns a document when every placeholder of the
    template is one of [title_html], [title_js] and [code]; a placeholder
    of any other name makes it throw the error of an undefined variable
    that names such a placeholder. *)
Theorem buildHTML_names source shim :
  ((forall n, n ∈ placeholders shim -> n ∈ template_names) ->
   returned (buildHTML (Str source) shim))
  /\ (forall n, n ∈ placeholders shim -> (n ∉ template_names) ->
      exists m, m ∈ placeholders shim /\ (m ∉ template_names)
        /\ buildHTML (Str source) shim = Throw (undefined_variable m)).
Proof.
  split; [apply buildHTML_returns_own|apply buildHTML_throws_foreign].
Qed.

(** X9: each of the three placeholders is replaced by its value as it is:
    the title unescaped, the title between double quotes, and the packed
    source whatever it holds, text that looks like a placeholder included;
    the texts before and after are assembled on their own. *)
Theorem buildHTML_occurrence source pre post :
  let around value :=
    a ← buildHTML (Str source) pre; b ← buildHTML (Str source) post;
    Normal (a ++ value ++ b) in
  buildHTML (Str source) (pre ++ placeholder (lit "code") ++ post)
  = around source
  /\ buildHTML (Str source) (pre ++ placeholder (lit "title_html") ++ post)
     = around (lit "Traveler")
  /\ buildHTML (Str source) (pre ++ placeholder (lit "title_js") ++ post)
     = around (34 :: lit "Traveler" ++ [34]).
Proof.
  cbv zeta. rewrite !buildHTML_evalTemplate. unfold evalTemplate.
  rewrite !replace_occurrence by done.
  repeat split; reflexivity.
Qed.

(** ** The build *)

(** X10: once there is a winner, [build] prints the statistics of its byte
    length whatever the template is like, and marks them as over the limit
    exactly when that length exceeds [sizeLimit]; being over the limit stops
    nothing.  The two files are produced when every placeholder of the
    template has one of the three names, and a placeholder of another name
    ends the run, after the statistics, without a file. *)
Theorem build_outcome fl stderr_columns packer source shim t :
  compressSource packer source = Normal (chosen t) ->
  let run := build fl stderr_columns packer source shim in
  run.1 = Some (printStats fl stderr_columns (Z.of_nat (byte_length t)))
  /\ (bar_scheme (printStats fl stderr_columns (Z.of_nat (byte_length t)))
      = over_limit <-> Z.of_nat (byte_length t) > sizeLimit)
  /\ ((forall n, n ∈ placeholders shim -> n ∈ template_names) ->
      exists html, buildHTML (Str t) shim = Normal html
        /\ run.2 = Normal (Buffer_from t, html))
  /\ (forall n, n ∈ placeholders shim -> (n ∉ template_names) -> throws run.2).
Proof.
  intros H. unfold build. rewrite H. simpl.
  split; [done|]. split; [|split].
  - unfold printStats. by case_decide.
  - intros [html Hhtml]%(buildHTML_returns_own t shim).
    exists html. by rewrite Hhtml.
  - intros n Hn Hforeign.
    destruct (buildHTML_throws_foreign t shim n Hn Hforeign)
      as (m & _ & _ & Hthrow).
    rewrite Hthrow. by eexists.
Qed.

Lemma build_outcome_sample :
  let run := build no_rounding None sample_packer (lit "var a = 1;")
               (lit "<b>{{title_html}}</b><script>{{code}}</script>") in
  run.1 = Some (printStats no_rounding None 3)
  /\ run.2 = Normal (lit "a=1", lit "<b>Traveler</b><script>a=1</script>").
Proof.
  destruct (build_outcome no_rounding None sample_packer (lit "var a = 1;")
              (lit "<b>{{title_html}}</b><script>{{code}}</script>")
              (lit "a=1") eq_refl) as (Hreport & _ & Hfiles & _).
  split; [exact Hreport|].
  destruct Hfiles as (html & Hhtml & Hrun).
  - intros n Hn.
    change (n ∈ [lit "title_html"; lit "code"]) in Hn.
    apply elem_of_cons in Hn as [->|Hn]; [by left|].
    apply list_elem_of_singleton in Hn as ->. right. right. by left.
  - rewrite Hrun. f_equal. f_equal.
    change (Normal (lit "<b>Traveler</b><script>a=1</script>") = Normal html)
      in Hhtml. congruence.
Defined.

(** ** Budget bar *)

Lemma bar_cells_from_one fl stderr_columns f :
  binary64_rounding fl ->
  columns stderr_columns < 2 ^ 28 ->
  (1 <= f)%Q ->
  bwidth fl stderr_columns f = columns stderr_columns * 8
  /\ bar_cells fl stderr_columns f = copies (columns stderr_columns) 0x2588.
Proof.
  intros Hfl HW Hf. pose proof (columns_at_least stderr_columns) as H8.
  assert (bwidth fl stderr_columns f = columns stderr_columns * 8) as E.
  { pose proof (bwidth_le fl Hfl stderr_columns _ _ Hf) as Hle.
    change 1%Q with (inject_Z 1) in Hle.
    rewrite (bwidth_integer fl Hfl stderr_columns 1) in Hle by lia.
    pose proof (bwidth_range fl stderr_columns f). lia. }
  split; [done|]. rewrite bar_cells_by_bwidth, E by done.
  rewrite Z.mod_mul, Z.div_mul, decide_True, Z.sub_diag by done.
  apply app_nil_r.
Qed.

Lemma bar_cells_to_zero fl stderr_columns f :
  binary64_rounding fl ->
  columns stderr_columns < 2 ^ 28 ->
  (f <= 0)%Q ->
  bwidth fl stderr_columns f = 0
  /\ bar_cells fl stderr_columns f = copies (columns stderr_columns) 32.
Proof.
  intros Hfl HW Hf. pose proof (columns_at_least stderr_columns) as H8.
  assert (bwidth fl stderr_columns f = 0) as E.
  { pose proof (bwidth_le fl Hfl stderr_columns _ _ Hf) as Hle.
    change 0%Q with (inject_Z 0) in Hle.
    rewrite (bwidth_integer fl Hfl stderr_columns 0) in Hle by lia.
    pose proof (bwidth_range fl stderr_columns f). lia. }
  split; [done|]. rewrite bar_cells_by_bwidth, E by done.
  rewrite decide_True by done. change (0 / 8) with 0.
  by rewrite Z.sub_0_r.
Qed.

(** X11: the fraction is clamped: at 1 and above every cell of the row is a
    full block, at 0 and below every cell is blank. *)
Theorem bar_cells_clamped fl stderr_columns :
  binary64_rounding fl ->
  columns stderr_columns < 2 ^ 28 ->
  (forall f : Q, (1 <= f)%Q ->
     bwidth fl stderr_columns f = columns stderr_columns * 8
     /\ bar_cells fl stderr_columns f = copies (columns stderr_columns) 0x2588)
  /\ (forall f : Q, (f <= 0)%Q ->
        bwidth fl stderr_columns f = 0
        /\ bar_cells fl stderr_columns f = copies (columns stderr_columns) 32).
Proof.
  intros Hfl HW. split; intros f Hf.
  - by apply bar_cells_from_one.
  - by apply bar_cells_to_zero.
Qed.

Lemma bar_cells_clamped_default :
  (forall f : Q, (1 <= f)%Q ->
     bwidth no_rounding None f = columns None * 8
     /\ bar_cells no_rounding None f = copies (columns None) 0x2588)
  /\ (forall f : Q, (f <= 0)%Q ->
        bwidth no_rounding None f = 0
        /\ bar_cells no_rounding None f = copies (columns None) 32).
Proof.
  exact (bar_cells_clamped no_rounding None no_rounding_binary64 eq_refl).
Defined.

Lemma length_copies n c : length (copies n c) = Z.to_nat n.
Proof. apply length_replicate. Qed.

(** X12: the row between the side rules has one code unit per cell, and the
    three lines of the box have the same width, unless seven eighths are
    left over: then the row is eight code units too long. *)
Theorem makeBar_widths fl stderr_columns f :
  columns stderr_columns < 2 ^ 28 ->
  let extra :=
    if decide (bwidth fl stderr_columns f mod 8 = 7) then 8%nat else 0%nat in
  length (bar_cells fl stderr_columns f)
  = (Z.to_nat (columns stderr_columns) + extra)%nat
  /\ length (makeBar fl stderr_columns f)
     = (3 * (Z.to_nat (columns stderr_columns) + 3) + extra)%nat.
Proof.
  intros HW extra. pose proof (columns_at_least stderr_columns) as H8.
  pose proof (bwidth_range fl stderr_columns f) as Hn.
  assert (length (bar_cells fl stderr_columns f)
          = (Z.to_nat (columns stderr_columns) + extra)%nat) as Hrow.
  { subst extra. rewrite bar_cells_by_bwidth by done.
    set (n := bwidth fl stderr_columns f) in *.
    pose proof (Z.mod_pos_bound n 8) as Hr.
    pose proof (Z.div_mod n 8) as Hdiv.
    destruct (decide (n mod 8 = 0)) as [E0|E0].
    - rewrite decide_False by lia. rewrite length_app, !length_copies. lia.
    - destruct (decide (n mod 8 = 7)) as [E7|E7].
      + rewrite E7. rewrite !length_app, !length_copies. simpl. lia.
      + rewrite barBlocks_lookup by lia.
        rewrite !length_app, !length_copies. simpl. lia. }
  split; [done|]. unfold makeBar.
  rewrite !length_app, Hrow, !length_copies. simpl. lia.
Qed.

Lemma makeBar_widths_default :
  length (bar_cells no_rounding None (1 # 3)) = 78%nat
  /\ length (makeBar no_rounding None (1 # 3)) = 243%nat.
Proof.
  exact (makeBar_widths no_rounding None (1 # 3) eq_refl).
Defined.

(** X18: with one to six eighths left over, the cell after the full blocks
    holds the glyph that stands one place after the remainder's own in the
    table, the block of one eighth more; the first glyph of the table, the
    block of one eighth, is the one never drawn.  The rest of the row is
    blank. *)
Theorem bar_cells_partial fl stderr_columns f :
  columns stderr_columns < 2 ^ 28 ->
  1 <= bwidth fl stderr_columns f mod 8 <= 6 ->
  bar_cells fl stderr_columns f
  = copies (bwidth fl stderr_columns f / 8) 0x2588
    ++ [0x258F - bwidth fl stderr_columns f mod 8]
    ++ copies (columns stderr_columns - (bwidth fl stderr_columns f / 8 + 1)) 32.
Proof.
  intros HW Hr. rewrite bar_cells_by_bwidth by done.
  rewrite decide_False by lia. by rewrite barBlocks_lookup by lia.
Qed.

Lemma bar_cells_partial_default :
  bar_cells no_rounding None (3 # 624)
  = copies (bwidth no_rounding None (3 # 624) / 8) 0x2588
    ++ [0x258F - bwidth no_rounding None (3 # 624) mod 8]
    ++ copies (columns None - (bwidth no_rounding None (3 # 624) / 8 + 1)) 32.
Proof.
  apply (bar_cells_partial no_rounding None (3 # 624)); [reflexivity|].
  vm_compute. split; discriminate.
Defined.

(** ** Statistics *)

Lemma share_of_limit (m : Z) :
  (inject_Z m / inject_Z sizeLimit == m # 1024)%Q.
Proof. unfold Qeq, Qdiv, Qmult, Qinv, inject_Z, sizeLimit. simpl. lia. Qed.

Lemma printStats_fraction fl (m : Z) :
  binary64_rounding fl -> Z.abs m < 2 ^ 40 ->
  (fl (inject_Z m / inject_Z sizeLimit) == m # 1024)%Q
  /\ (fl (100 * fl (inject_Z m / inject_Z sizeLimit)) == (100 * m) # 1024)%Q.
Proof.
  intros Hfl Hm.
  assert (fl (inject_Z m / inject_Z sizeLimit) == m # 1024)%Q as E.
  { transitivity (fl (m # 1024)); [apply fl_eq, share_of_limit; done|].
    apply (fl_representable _ Hfl m 10); lia. }
  split; [done|].
  transitivity (fl ((100 * m) # 1024)).
  - apply fl_eq; [done|]. rewrite E. unfold Qeq. simpl. lia.
  - apply (fl_representable _ Hfl (100 * m) 10); lia.
Qed.

(** X13: for a size within the limit the statistics are computed without
    rounding error: the bar is the one of the share of the limit that
    remains, the number of its filled eighths is that share of the width
    rounded half up, and the percentage is a hundred times that share. *)
Theorem printStats_within fl stderr_columns size :
  binary64_rounding fl ->
  columns stderr_columns < 2 ^ 28 ->
  0 <= size <= sizeLimit ->
  let stats := printStats fl stderr_columns size in
  let left := sizeLimit - size in
  reported_size stats = size
  /\ bar_scheme stats = within_limit
  /\ bar stats = makeBar fl stderr_columns (left # 1024)
  /\ bwidth fl stderr_columns (left # 1024)
     = (left * columns stderr_columns * 16 + 1024) / 2048
  /\ (percentage stats == (100 * left) # 1024)%Q.
Proof.
  intros Hfl HW Hsize stats left. subst stats left.
  pose proof (columns_at_least stderr_columns) as H8.
  unfold sizeLimit in Hsize.
  destruct (printStats_fraction fl (sizeLimit - size) Hfl) as [Efrac Epct];
    [unfold sizeLimit; lia|].
  unfold printStats. rewrite decide_False by (unfold sizeLimit; lia). simpl.
  split; [done|]. split; [done|].
  split; [by apply makeBar_eq|]. split; [|done].
  set (m := sizeLimit - size) in *.
  assert (0 <= m <= 1024) as Hm by (unfold m, sizeLimit; lia).
  assert (0 <= m * columns stderr_columns <= 1024 * columns stderr_columns)
    as Hp by nia.
  unfold bwidth.
  rewrite (Math_round_eq _ ((m * columns stderr_columns * 8) # Pos.shiftl 1 10))
    by (apply (scaled_dyadic fl Hfl stderr_columns m 10); lia).
  unfold Math_round, Qfloor, Qplus. simpl.
  change (Pos.shiftl 1 10) with 1024%positive.
  change (Z.pos (1024 * 2)) with 2048.
  clearbody m. set (p := m * columns stderr_columns) in *. clearbody p.
  replace (p * 8 * 2 + 1 * 1024) with (p * 16 + 1024) by lia.
  assert (0 <= (p * 16 + 1024) / 2048) by (apply Z.div_pos; lia).
  assert ((p * 16 + 1024) / 2048 < columns stderr_columns * 8 + 1)
    by (apply Z.div_lt_upper_bound; lia).
  lia.
Qed.

Lemma printStats_within_sample :
  let stats := printStats no_rounding None 1013 in
  reported_size stats = 1013
  /\ bar_scheme stats = within_limit
  /\ bar stats = makeBar no_rounding None (11 # 1024)
  /\ bwidth no_rounding None (11 # 1024) = (11 * 78 * 16 + 1024) / 2048
  /\ (percentage stats == 1100 # 1024)%Q.
Proof.
  apply (printStats_within no_rounding None 1013 no_rounding_binary64);
    [reflexivity|unfold sizeLimit; lia].
Defined.

(** X14: for a size over the limit the bar is the one of the overshoot as a
    share of the limit and the percentage a hundred times that share, again
    without rounding error; from twice the limit on the row is full. *)
Theorem printStats_over fl stderr_columns size :
  binary64_rounding fl ->
  columns stderr_columns < 2 ^ 28 ->
  sizeLimit < size < 2 ^ 40 ->
  let stats := printStats fl stderr_columns size in
  let over := size - sizeLimit in
  reported_size stats = size
  /\ bar_scheme stats = over_limit
  /\ bar stats = makeBar fl stderr_columns (over # 1024)
  /\ (percentage stats == (100 * over) # 1024)%Q
  /\ (2 * sizeLimit <= size ->
      bar_cells fl stderr_columns (over # 1024)
      = copies (columns stderr_columns) 0x2588).
Proof.
  intros Hfl HW Hsize stats over. subst stats over.
  unfold sizeLimit in Hsize.
  destruct (printStats_fraction fl (size - sizeLimit) Hfl) as [Efrac Epct];
    [unfold sizeLimit; lia|].
  unfold printStats. rewrite decide_True by (unfold sizeLimit; lia). simpl.
  split; [done|]. split; [done|].
  split; [by apply makeBar_eq|]. split; [done|].
  intros Htwice.
  apply (bar_cells_from_one fl stderr_columns _ Hfl HW).
  unfold Qle, sizeLimit in *. simpl. lia.
Qed.

Lemma printStats_over_sample :
  let stats := printStats no_rounding None 2560 in
  reported_size stats = 2560
  /\ bar_scheme stats = over_limit
  /\ bar stats = makeBar no_rounding None (1536 # 1024)
  /\ (percentage stats == 153600 # 1024)%Q
  /\ (2 * sizeLimit <= 2560 ->
      bar_cells no_rounding None (1536 # 1024) = copies (columns None) 0x2588).
Proof.
  apply (printStats_over no_rounding None 2560 no_rounding_binary64);
    [reflexivity|unfold sizeLimit; lia].
Defined.

(** ** The output directory *)

(** The entry under [name] in the directory a path leads to. *)
Lemma walk_snoc fs name todo : forall here,
  walk fs here (todo ++ [name])
  = match walk fs here todo with
    | Done Directory =>
      match fs !! (here ++ todo ++ [name]) with
      | Some entry => Done entry
      | None => Fails ENOENT
      end
    | Done (File _) => Fails ENOTDIR
    | Fails code => Fails code
    end.
Proof.
  induction todo as [|c rest IH]; intros here; simpl.
  - by destruct (fs !! (here ++ [name])) as [[|data]|].
  - destruct (fs !! (here ++ [c])) as [[|data]|]; [| |done].
    + rewrite IH. by rewrite <- (app_assoc here [c]).
    + by destruct rest.
Qed.

(** A new entry does not change where a shorter path leads. *)
Lemma walk_insert fs path entry todo : forall here,
  (length (here ++ todo) < length path)%nat ->
  walk (<[path := entry]> fs) here todo = walk fs here todo.
Proof.
  induction todo as [|c rest IH]; intros here Hlen; simpl; [done|].
  rewrite !length_app in Hlen. simpl in Hlen.
  rewrite lookup_insert_ne
    by (intros ->; rewrite length_app in Hlen; simpl in Hlen; lia).
  destruct (fs !! (here ++ [c])) as [[|data]|]; [|done|done].
  apply IH. rewrite !length_app. simpl. lia.
Qed.

Lemma walk_not_EEXIST fs todo : forall here,
  walk fs here todo <> Fails EEXIST.
Proof.
  induction todo as [|c rest IH]; intros here; simpl; [done|].
  destruct (fs !! (here ++ [c])) as [[|data]|]; [apply IH| |done].
  by destruct rest.
Qed.

(** What [mkdirExistOk] does to the entry [name] of the directory [parent]
    leads to. *)
Lemma mkdirExistOk_entry fs parent name :
  mkdirExistOk (parent ++ [name]) fs
  = match walk fs [] parent with
    | Done Directory =>
      match fs !! (parent ++ [name]) with
      | None => (<[parent ++ [name] := Directory]> fs, Done ())
      | Some Directory => (fs, Done ())
      | Some (File _) => (fs, Fails EEXIST)
      end
    | Done (File _) => (fs, Fails ENOTDIR)
    | Fails code => (fs, Fails code)
    end.
Proof.
  unfold mkdirExistOk, stat, mkdir.
  rewrite removelast_last, walk_snoc. simpl.
  destruct (walk fs [] parent) as [[|data]|[| |]]; try done.
  by destruct (fs !! (parent ++ [name])) as [[|data]|].
Qed.

Lemma mkdirExistOk_returned path fs fs' :
  mkdirExistOk path fs = (fs', Done ()) ->
  stat fs' path = Done true
  /\ (stat fs path = Done true /\ fs' = fs
      \/ stat fs path = Fails ENOENT /\ fs' = <[path := Directory]> fs).
Proof.
  destruct path as [|c r] using rev_ind.
  { intros [= <-]. split; [done|]. by left. }
  clear IHr. rewrite mkdirExistOk_entry.
  unfold stat. rewrite !walk_snoc.
  destruct (walk fs [] r) as [[|data]|code] eqn: Er; [|done|done].
  simpl. destruct (fs !! (r ++ [c])) as [[|data]|] eqn: Ec; intros [= <-].
  - rewrite Er. simpl. rewrite Ec. split; [done|]. by left.
  - rewrite walk_insert by (rewrite !length_app; simpl; lia).
    rewrite Er. simpl. rewrite lookup_insert_eq. split; [done|]. by right.
Qed.

(** X15: when [mkdirExistOk] returns, the path leads to a directory, and
    the directory is the only entry that may be new: either it was there and
    nothing has changed, or nothing was there and it has been added. *)
Theorem mkdirExistOk_done path fs fs' :
  mkdirExistOk path fs = (fs', Done ()) ->
  stat fs' path = Done true
  /\ (stat fs path = Done true /\ fs' = fs
      \/ stat fs path = Fails ENOENT /\ fs' = <[path := Directory]> fs).
Proof. apply mkdirExistOk_returned. Qed.

Lemma mkdirExistOk_done_absent :
  mkdirExistOk [lit "build"] ∅ = (<[[lit "build"] := Directory]> ∅, Done ())
  /\ stat (<[[lit "build"] := Directory]> ∅) [lit "build"] = Done true
  /\ (stat ∅ [lit "build"] = Done true
        /\ <[[lit "build"] := Directory]> ∅ = (∅ : gmap (list jsstring) node)
      \/ stat ∅ [lit "build"] = Fails ENOENT
        /\ <[[lit "build"] := Directory]> ∅
           = <[[lit "build"] := Directory]> (∅ : gmap (list jsstring) node)).
Proof.
  split; [reflexivity|].
  apply (mkdirExistOk_done [lit "build"] ∅). reflexivity.
Defined.

(** X16: when [mkdirExistOk] fails, the tree is as it was, and the code tells
    why: [EEXIST] for a file in the place of the directory, [ENOTDIR] for a
    file on the way to it, [ENOENT] for a parent that is missing. *)
Theorem mkdirExistOk_fails parent name fs fs' code :
  mkdirExistOk (parent ++ [name]) fs = (fs', Fails code) ->
  fs' = fs
  /\ match code with
     | EEXIST =>
       walk fs [] parent = Done Directory
       /\ exists data, fs !! (parent ++ [name]) = Some (File data)
     | ENOTDIR =>
       walk fs [] parent = Fails ENOTDIR
       \/ exists data, walk fs [] parent = Done (File data)
     | ENOENT => walk fs [] parent = Fails ENOENT
     end.
Proof.
  rewrite mkdirExistOk_entry.
  destruct (walk fs [] parent) as [[|data]|[| |]] eqn: Er.
  - destruct (fs !! (parent ++ [name])) as [[|data]|]; intros [= <- <-].
    split; [done|]. split; [done|]. by eexists.
  - intros [= <- <-]. split; [done|]. right. by eexists.
  - by intros [= <- <-].
  - by apply walk_not_EEXIST in Er.
  - intros [= <- <-]. split; [done|]. by left.
Qed.

Lemma mkdirExistOk_fails_file :
  mkdirExistOk ([] ++ [lit "build"]) tree_with_file
  = (tree_with_file, Fails EEXIST)
  /\ tree_with_file = tree_with_file
  /\ walk tree_with_file [] [] = Done Directory
  /\ exists data, tree_with_file !! ([] ++ [lit "build"]) = Some (File data).
Proof.
  split; [reflexivity|].
  apply (mkdirExistOk_fails [] (lit "build") tree_with_file _ EEXIST).
  reflexivity.
Defined.

(** X17: [mkdirExistOk] can be repeated: after a run that returned, a second
    run returns as well and leaves the tree as the first run left it. *)
Theorem mkdirExistOk_again path fs fs' :
  mkdirExistOk path fs = (fs', Done ()) ->
  mkdirExistOk path fs' = (fs', Done ()).
Proof.
  intros [Hstat _]%mkdirExistOk_returned.
  unfold mkdirExistOk. by rewrite Hstat.
Qed.

Lemma mkdirExistOk_again_absent :
  mkdirExistOk [lit "build"] ∅ = (<[[lit "build"] := Directory]> ∅, Done ())
  /\ mkdirExistOk [lit "build"] (<[[lit "build"] := Directory]> ∅)
     = (<[[lit "build"] := Directory]> ∅, Done ()).
Proof.
  split; [reflexivity|].
  apply (mkdirExistOk_again [lit "build"] ∅). reflexivity.
Defined.
